(** * youtube-script-search: transcript bucketing, summarization run,
      summary store and QA loop

    A shallow embedding of [src/yts/summarize.py] and [src/yts/__main__.py].

    Conventions of the embedding:
    - a Python [str] is the list of its code points ([pystr]);
    - a Python [float] holding a time in seconds is an exact rational [Q]
      (every finite float is one); rounding of float addition and the
      non-finite floats are outside the model;
    - a Python [int] is a [Z];
    - a call that may raise returns a [result]: [Ok v] or [Raise e];
    - external collaborators (the LangChain chain, the QA backend, the
      console, the file system, the process environment) are explicit state
      threaded through the calls. *)

From Stdlib Require Import ZArith QArith Qround Lia String Ascii Sorted.
From stdpp Require Import base option list gmap.

Set Default Proof Using "Type".
Set Warnings "-register-all".
Local Open Scope Z_scope.

(** ** Python primitives *)

Module Py.

(** A Python string: its sequence of code points. *)
Definition pystr := list N.

(** A string literal of the source, given by its (ASCII) characters. *)
Definition lit (s : String.string) : pystr :=
  List.map Ascii.N_of_ascii (String.list_ascii_of_string s).
Arguments lit s%_string.

(** The exceptions the modelled code can raise.  [External] stands for
    whatever an external collaborator (LLM provider, QA backend) raises. *)
Inductive exn :=
| IndexError
| ZeroDivisionError
| KeyError (key : pystr)
| EOFError
| JSONDecodeError
| TypeError
| ValueError
| OSError
| External (what : pystr).

Inductive result (A : Type) :=
| Ok (a : A)
| Raise (e : exn).
Arguments Ok {A} a.
Arguments Raise {A} e.

#[global] Instance result_ret : MRet result := λ A a, Ok a.
#[global] Instance result_bind : MBind result := λ A B k r,
  match r with
  | Ok a => k a
  | Raise e => Raise e
  end.

Definition is_ok {A} (r : result A) : bool :=
  match r with Ok _ => true | Raise _ => false end.

(** [a // b] on floats: the floor of the quotient, as a float;
    a zero divisor raises. *)
Definition floordiv (a b : Q) : result Q :=
  if Qeq_bool b 0 then Raise ZeroDivisionError
  else Ok (inject_Z (Qfloor (a / b))).

(** [int(x)] on a float: truncation toward zero. *)
Definition int (x : Q) : Z := Z.quot (Qnum x) (Zpos (Qden x)).

(** [l[-1]]. *)
Definition last_item {A} (l : list A) : result A :=
  match last l with
  | Some x => Ok x
  | None => Raise IndexError
  end.

(** The position [l[i]] denotes in a list of length [len]: a negative
    index counts from the end, anything out of range raises. *)
Definition index (len : nat) (i : Z) : result nat :=
  if 0 <=? i then
    if i <? Z.of_nat len then Ok (Z.to_nat i) else Raise IndexError
  else
    if 0 <=? Z.of_nat len + i then Ok (Z.to_nat (Z.of_nat len + i))
    else Raise IndexError.

(** [str.isspace] on one code point: the Unicode white space that
    [str.strip()] removes. *)
Definition isspace (c : N) : bool :=
  ((9 <=? c) && (c <=? 13) || (28 <=? c) && (c <=? 32)
   || (c =? 133) || (c =? 160) || (c =? 5760)
   || (8192 <=? c) && (c <=? 8202)
   || (c =? 8232) || (c =? 8233) || (c =? 8239) || (c =? 8287)
   || (c =? 12288))%N.

Fixpoint lstrip (s : pystr) : pystr :=
  match s with
  | [] => []
  | c :: rest => if isspace c then lstrip rest else s
  end.

Definition rstrip (s : pystr) : pystr := rev (lstrip (rev s)).

(** [s.strip()]. *)
Definition strip (s : pystr) : pystr := rstrip (lstrip s).

(** [s == ""]. *)
Definition is_empty (s : pystr) : bool :=
  match s with [] => true | _ => false end.

Definition slash : N := 47%N.

(** [s.rstrip('/')]. *)
Fixpoint lstrip_slash (s : pystr) : pystr :=
  match s with
  | [] => []
  | c :: rest => if (c =? slash)%N then lstrip_slash rest else s
  end.

(** [s.rstrip('/')]. *)
Definition rstrip_slash (s : pystr) : pystr := rev (lstrip_slash (rev s)).

(** The suffix of a reversed path that starts at its first slash: the
    reverse of [p[:p.rfind('/') + 1]]. *)
Fixpoint from_slash (s : pystr) : pystr :=
  match s with
  | [] => []
  | c :: rest => if (c =? slash)%N then s else from_slash rest
  end.

(** [os.path.dirname] (posixpath): the part up to the last slash, without
    its trailing slashes unless it consists of slashes only. *)
Definition dirname (p : pystr) : pystr :=
  let head := rev (from_slash (rev p)) in
  if forallb (N.eqb slash) head then head else rstrip_slash head.

End Py.

Import Py.

(** ** The [json] module, as far as summary records need it *)

Module Json.

(** What [json.load] returns and [json.dumps] accepts: [None], [bool],
    [str], [list], and [dict] with string keys in insertion order.
    Numbers are left out: no summary record holds one. *)
Inductive value :=
| JNull
| JBool (b : bool)
| JString (s : pystr)
| JArray (items : list value)
| JObject (pairs : list (pystr * value)).

Definition quote : N := 34%N.
Definition backslash : N := 92%N.

(** A lower-case hexadecimal digit. *)
Definition hexchar (d : N) : N := (if d <? 10 then 48 + d else 87 + d)%N.

(** [ESCAPE_DCT] of [json.encoder], used when [ensure_ascii=False]: the
    quote, the backslash and the control characters below [0x20] are
    escaped, every other character is written as it is. *)
Definition escape_char (c : N) : pystr :=
  (if c =? quote then [backslash; quote]
   else if c =? backslash then [backslash; backslash]
   else if c =? 8 then backslash :: lit "b"
   else if c =? 12 then backslash :: lit "f"
   else if c =? 10 then backslash :: lit "n"
   else if c =? 13 then backslash :: lit "r"
   else if c =? 9 then backslash :: lit "t"
   else if c <? 32 then
     backslash :: lit "u00" ++ [hexchar (c / 16); hexchar (c mod 16)]
   else [c])%N.

(** [py_encode_basestring]. *)
Definition encode_basestring (s : pystr) : pystr :=
  quote :: flat_map escape_char s ++ [quote].

Fixpoint join (sep : pystr) (parts : list pystr) : pystr :=
  match parts with
  | [] => []
  | [x] => x
  | x :: rest => x ++ sep ++ join sep rest
  end.

(** [json.dumps(v, ensure_ascii=False)], with the default separators. *)
Fixpoint dumps (v : value) : pystr :=
  match v with
  | JNull => lit "null"
  | JBool true => lit "true"
  | JBool false => lit "false"
  | JString s => encode_basestring s
  | JArray items =>
      lit "[" ++ join (lit ", ") (List.map dumps items) ++ lit "]"
  | JObject pairs =>
      lit "{" ++
      join (lit ", ")
        (List.map (λ kv, encode_basestring (fst kv) ++ lit ": " ++ dumps (snd kv))
           pairs) ++
      lit "}"
  end.

(** The value of a hexadecimal digit. *)
Definition hexval (c : N) : option N :=
  (if (48 <=? c) && (c <=? 57) then Some (c - 48)
   else if (97 <=? c) && (c <=? 102) then Some (c - 87)
   else if (65 <=? c) && (c <=? 70) then Some (c - 55)
   else None)%N.

Definition hex4 (d1 d2 d3 d4 : N) : option N :=
  v1 ← hexval d1; v2 ← hexval d2; v3 ← hexval d3; v4 ← hexval d4;
  Some (((v1 * 16 + v2) * 16 + v3) * 16 + v4)%N.

(** The character a one-letter escape stands for. *)
Definition unescape (e : N) : option N :=
  (if e =? quote then Some quote
   else if e =? backslash then Some backslash
   else if e =? 47 then Some 47
   else if e =? 98 then Some 8
   else if e =? 102 then Some 12
   else if e =? 110 then Some 10
   else if e =? 114 then Some 13
   else if e =? 116 then Some 9
   else None)%N.

Definition is_high_surrogate (u : N) : bool := ((55296 <=? u) && (u <=? 56319))%N.
Definition is_low_surrogate (u : N) : bool := ((56320 <=? u) && (u <=? 57343))%N.

(** ["\uXXXX"] at the head of [s]: its value and what follows. *)
Definition scan_u (s : pystr) : option (N * pystr) :=
  match s with
  | b :: u :: d1 :: d2 :: d3 :: d4 :: rest =>
      if ((b =? backslash) && (u =? 117))%N
      then v ← hex4 d1 d2 d3 d4; Some (v, rest)
      else None
  | _ => None
  end.

(** [scanstring] in strict mode, from just after the opening quote: the
    decoded string and the text after the closing quote. *)
Fixpoint scanstring (s : pystr) : result (pystr * pystr) :=
  match s with
  | [] => Raise JSONDecodeError
  | c :: rest =>
      if (c =? quote)%N then Ok ([], rest)
      else if (c =? backslash)%N then
        match rest with
        | [] => Raise JSONDecodeError
        | e :: rest1 =>
            if (e =? 117)%N then
              match rest1 with
              | d1 :: d2 :: d3 :: d4 :: rest2 =>
                  match hex4 d1 d2 d3 d4 with
                  | None => Raise JSONDecodeError
                  | Some u =>
                      match rest2 with
                      | b :: u' :: e1 :: e2 :: e3 :: e4 :: rest3 =>
                          match scan_u (b :: u' :: e1 :: e2 :: e3 :: e4 :: []) with
                          | Some (u2, _) =>
                              if is_high_surrogate u && is_low_surrogate u2 then
                                p ← scanstring rest3;
                                Ok ((65536 + ((u - 55296) * 1024 + (u2 - 56320)))%N :: p.1, p.2)
                              else
                                p ← scanstring rest2; Ok (u :: p.1, p.2)
                          | None => p ← scanstring rest2; Ok (u :: p.1, p.2)
                          end
                      | _ => p ← scanstring rest2; Ok (u :: p.1, p.2)
                      end
                  end
              | _ => Raise JSONDecodeError
              end
            else
              match unescape e with
              | Some c' => p ← scanstring rest1; Ok (c' :: p.1, p.2)
              | None => Raise JSONDecodeError
              end
        end
      else if (c <? 32)%N then Raise JSONDecodeError
      else p ← scanstring rest; Ok (c :: p.1, p.2)
  end.

(** JSON white space. *)
Definition is_ws (c : N) : bool :=
  ((c =? 32) || (c =? 9) || (c =? 10) || (c =? 13))%N.

Fixpoint skip_ws (s : pystr) : pystr :=
  match s with
  | [] => []
  | c :: rest => if is_ws c then skip_ws rest else s
  end.

(** [s.startswith(prefix)], returning the rest. *)
Fixpoint strip_prefix (prefix s : pystr) : option pystr :=
  match prefix, s with
  | [], _ => Some s
  | p :: prefix', c :: s' => if (p =? c)%N then strip_prefix prefix' s' else None
  | _ :: _, [] => None
  end.

(** [d[k] = v] on a dict kept in insertion order. *)
Fixpoint dict_set (k : pystr) (v : value) (d : list (pystr * value))
    : list (pystr * value) :=
  match d with
  | [] => [(k, v)]
  | (k', v') :: d' =>
      if decide (k = k') then (k, v) :: d' else (k', v') :: dict_set k v d'
  end.

(** [dict(pairs)]. *)
Definition dict_of_pairs (pairs : list (pystr * value)) : list (pystr * value) :=
  fold_left (λ d kv, dict_set kv.1 kv.2 d) pairs [].

(** The decoder ([scan_once], [JSONArray], [JSONObject]).  The recursion
    is bounded by [fuel]; [loads] below supplies enough of it.  A number
    token is outside the modelled fragment and is reported like a
    malformed document. *)
Fixpoint scan_once (fuel : nat) (s : pystr) : result (value * pystr) :=
  match fuel with
  | O => Raise JSONDecodeError
  | S fuel =>
      match s with
      | [] => Raise JSONDecodeError
      | c :: rest =>
          if (c =? quote)%N then
            p ← scanstring rest; Ok (JString p.1, p.2)
          else if (c =? 123)%N then
            match skip_ws rest with
            | c' :: rest' =>
                if (c' =? 125)%N then Ok (JObject [], rest')
                else p ← object_items fuel (c' :: rest');
                     Ok (JObject (dict_of_pairs p.1), p.2)
            | [] => Raise JSONDecodeError
            end
          else if (c =? 91)%N then
            match skip_ws rest with
            | c' :: rest' =>
                if (c' =? 93)%N then Ok (JArray [], rest')
                else p ← array_items fuel (c' :: rest'); Ok (JArray p.1, p.2)
            | [] => Raise JSONDecodeError
            end
          else
            match strip_prefix (lit "null") s with
            | Some r => Ok (JNull, r)
            | None =>
            match strip_prefix (lit "true") s with
            | Some r => Ok (JBool true, r)
            | None =>
            match strip_prefix (lit "false") s with
            | Some r => Ok (JBool false, r)
            | None => Raise JSONDecodeError
            end end end
      end
  end
with array_items (fuel : nat) (s : pystr) : result (list value * pystr) :=
  match fuel with
  | O => Raise JSONDecodeError
  | S fuel =>
      p ← scan_once fuel s;
      match skip_ws p.2 with
      | c :: rest =>
          if (c =? 93)%N then Ok ([p.1], rest)
          else if (c =? 44)%N then
            q ← array_items fuel (skip_ws rest); Ok (p.1 :: q.1, q.2)
          else Raise JSONDecodeError
      | [] => Raise JSONDecodeError
      end
  end
with object_items (fuel : nat) (s : pystr)
    : result (list (pystr * value) * pystr) :=
  match fuel with
  | O => Raise JSONDecodeError
  | S fuel =>
      match s with
      | c :: rest =>
          if (c =? quote)%N then
            k ← scanstring rest;
            match skip_ws k.2 with
            | c1 :: rest1 =>
                if (c1 =? 58)%N then
                  p ← scan_once fuel (skip_ws rest1);
                  match skip_ws p.2 with
                  | c2 :: rest2 =>
                      if (c2 =? 125)%N then Ok ([(k.1, p.1)], rest2)
                      else if (c2 =? 44)%N then
                        q ← object_items fuel (skip_ws rest2);
                        Ok ((k.1, p.1) :: q.1, q.2)
                      else Raise JSONDecodeError
                  | [] => Raise JSONDecodeError
                  end
                else Raise JSONDecodeError
            | [] => Raise JSONDecodeError
            end
          else Raise JSONDecodeError
      | [] => Raise JSONDecodeError
      end
  end.

(** [json.loads]: one value, white space around it, nothing after. *)
Definition loads (s : pystr) : result value :=
  p ← scan_once (2 * length s + 2) (skip_ws s);
  match skip_ws p.2 with
  | [] => Ok p.1
  | _ :: _ => Raise JSONDecodeError
  end.

(** [v[key]] for a string key. *)
Definition getitem (v : value) (key : pystr) : result value :=
  match v with
  | JObject pairs =>
      match List.find (λ kv, bool_decide (kv.1 = key)) pairs with
      | Some kv => Ok kv.2
      | None => Raise (KeyError key)
      end
  | _ => Raise TypeError
  end.

End Json.

Import Json.

(** ** The world the two programs act on *)

Module World.

(** Modelled from the spec: [YoutubeQA.get_source] ([yts/qa.py]) is not
    part of the sources; the spec gives a source as
    [(score, chunkId, timeLabel, sourceText)]. *)
Record source_row := {
  score : Q;
  chunk_id : pystr;
  time_label : pystr;
  source_text : pystr
}.

(** What the programs write to the console, one item per [print] (or
    prompt), with the values that are formatted into it. *)
Inductive output :=
| OutPrompt (prompt : pystr)
| OutSummary (concise : Json.value)
| OutAnswerLabel
| OutAnswer (answer : pystr)
| OutSource (row : source_row)
| OutBlank.

(** Calls to the external collaborators, in the order they are made. *)
Inductive event :=
| EvChain (docs : list pystr) (r : result pystr)
| EvSleep (seconds : Z)
| EvQuery (query : pystr) (r : result pystr).

(** The process environment, the file system (files with their text,
    directories), the console and the log of external calls; [ext] is the
    state of the external collaborator (the LLM, the QA backend). *)
Record state (X : Type) := State {
  env : gmap pystr pystr;
  files : gmap pystr pystr;
  dirs : gset pystr;
  stdin : list pystr;
  stdout : list output;
  trace : list event;
  ext : X
}.
Arguments State {X}.
Arguments env {X}. Arguments files {X}. Arguments dirs {X}.
Arguments stdin {X}. Arguments stdout {X}. Arguments trace {X}.
Arguments ext {X}.

(** A computation that acts on the world and may raise; what it did before
    raising stays done. *)
Definition io (X A : Type) : Type := state X → result A * state X.

#[global] Instance io_ret {X} : MRet (io X) := λ A a σ, (Ok a, σ).
#[global] Instance io_bind {X} : MBind (io X) := λ A B k m σ,
  match m σ with
  | (Ok a, σ') => k a σ'
  | (Raise e, σ') => (Raise e, σ')
  end.

Section ops.
Context {X : Type}.

Definition raise {A} (e : exn) : io X A := λ σ, (Raise e, σ).

Definition lift {A} (r : result A) : io X A := λ σ, (r, σ).

(** [os.environ[key]]. *)
Definition environ (key : pystr) : io X pystr := λ σ,
  match env σ !! key with
  | Some v => (Ok v, σ)
  | None => (Raise (KeyError key), σ)
  end.

(** [os.path.exists]. *)
Definition path_exists (p : pystr) : io X bool := λ σ,
  (Ok (bool_decide (is_Some (files σ !! p) ∨ p ∈ dirs σ)), σ).

(** [os.path.isdir]. *)
Definition isdir (p : pystr) : io X bool := λ σ,
  (Ok (bool_decide (p ∈ dirs σ)), σ).

(** [os.makedirs]: the path becomes a directory, unless it exists. *)
Definition makedirs (p : pystr) : io X unit := λ σ,
  if bool_decide (is_Some (files σ !! p) ∨ p ∈ dirs σ)
  then (Raise OSError, σ)
  else (Ok (), State (env σ) (files σ) ({[p]} ∪ dirs σ) (stdin σ)
                 (stdout σ) (trace σ) (ext σ)).

(** [with open(p, "w") as f: f.write(content)]: the file holds
    [content] and nothing else afterwards.  Opening fails on a directory
    and inside a directory that does not exist. *)
Definition write_file (p content : pystr) : io X unit := λ σ,
  if bool_decide (p ∈ dirs σ) || negb (bool_decide (dirname p ∈ dirs σ))
  then (Raise OSError, σ)
  else (Ok (), State (env σ) (<[p := content]> (files σ)) (dirs σ)
                 (stdin σ) (stdout σ) (trace σ) (ext σ)).

(** [with open(p, "r") as f: f.read()]. *)
Definition read_file (p : pystr) : io X pystr := λ σ,
  match files σ !! p with
  | Some content => (Ok content, σ)
  | None => (Raise OSError, σ)
  end.

Definition print (o : output) : io X unit := λ σ,
  (Ok (), State (env σ) (files σ) (dirs σ) (stdin σ)
            (stdout σ ++ [o]) (trace σ) (ext σ)).

(** [input(prompt)]: the prompt is written, one line is read; the end
    of the input raises. *)
Definition input (prompt : pystr) : io X pystr := λ σ,
  let out := stdout σ ++ [OutPrompt prompt] in
  match stdin σ with
  | line :: rest =>
      (Ok line, State (env σ) (files σ) (dirs σ) rest out (trace σ) (ext σ))
  | [] =>
      (Raise EOFError, State (env σ) (files σ) (dirs σ) [] out (trace σ) (ext σ))
  end.

Definition log (ev : event) : io X unit := λ σ,
  (Ok (), State (env σ) (files σ) (dirs σ) (stdin σ) (stdout σ)
            (trace σ ++ [ev]) (ext σ)).

(** [time.sleep]. *)
Definition sleep (seconds : Z) : io X unit := log (EvSleep seconds).

(** A call to an external collaborator: it acts on its own state only,
    and returns or raises; the call is entered in the log as [ev]. *)
Definition external {A} (call : X → result A * X)
    (ev : option (result A → event)) : io X A := λ σ,
  let '(r, x) := call (ext σ) in
  (r, State (env σ) (files σ) (dirs σ) (stdin σ) (stdout σ)
        (trace σ ++ match ev with Some ev => [ev r] | None => [] end) x).

(** The state of the external collaborator. *)
Definition get_ext : io X X := λ σ, (Ok (ext σ), σ).

End ops.

End World.

Import World.

(** ** [yts/summarize.py] *)

Module Summarize.

(** Modelled from the spec: the declaration of [TranscriptChunkModel]
    ([yts/types.py]) is not part of the sources; the spec's data model
    gives its fields [id], [text], [start], [duration]. *)
Record TranscriptChunkModel := {
  id : pystr;
  text : pystr;
  start : Q;
  duration : Q
}.

(** Lines 122-123: the bucket index of one chunk.
<<
    idx = int(tc.start // delta)
    idx = idx if idx < split_num else split_num
>> *)
Definition bucket_index (split_num : Z) (delta : Q)
    (tc : TranscriptChunkModel) : result Z :=
  q ← floordiv (start tc) delta;
  let idx := int q in
  Ok (if idx <? split_num then idx else split_num).

(** Lines 122-126: the body of the [for tc in self.chunks] loop, acting on
    the list [splited_chunks]. *)
Definition divide_step (split_num : Z) (delta : Q)
    (splited_chunks : list (list TranscriptChunkModel))
    (tc : TranscriptChunkModel) : result (list (list TranscriptChunkModel)) :=
  idx ← bucket_index split_num delta tc;
  let splited_chunks :=
    if Z.of_nat (length splited_chunks) <? idx + 1
    then splited_chunks ++ [[]] else splited_chunks in
  pos ← index (length splited_chunks) idx;
  Ok (alter (λ sc, sc ++ [tc]) pos splited_chunks).

(** Lines 121-126: the loop. *)
Fixpoint divide_loop (split_num : Z) (delta : Q)
    (splited_chunks : list (list TranscriptChunkModel))
    (chunks : list TranscriptChunkModel)
    : result (list (list TranscriptChunkModel)) :=
  match chunks with
  | [] => Ok splited_chunks
  | tc :: rest =>
      splited_chunks ← divide_step split_num delta splited_chunks tc;
      divide_loop split_num delta splited_chunks rest
  end.

(** Line 118. *)
Definition total_time (last_chunk : TranscriptChunkModel) : Q :=
  (start last_chunk + duration last_chunk)%Q.

(** Lines 117-127, [YoutubeSummarize._divide_chunks_by_time], with
    [self.chunks] as the argument [chunks]. *)
Definition _divide_chunks_by_time (chunks : list TranscriptChunkModel)
    (split_num : Z) : result (list (list TranscriptChunkModel)) :=
  last_chunk ← last_item chunks;
  delta ← floordiv (total_time last_chunk) (inject_Z split_num);
  let splited_chunks := replicate (Z.to_nat split_num) [] in
  splited_chunks ← divide_loop split_num delta splited_chunks chunks;
  Ok (filter (λ sc, (0 < length sc)%nat) splited_chunks).

(** The attributes of a [YoutubeSummarize] object; [self.llm] lives in
    the external state. *)
Record YoutubeSummarize := {
  vid : pystr;
  debug : bool;
  url : pystr;
  title : pystr;
  summary_file : pystr;
  chain_type : pystr;
  chunks : list TranscriptChunkModel
}.

Definition SUMMARY_STORE_DIR : pystr := lit "SUMMARY_STORE_DIR".

(** [f'{os.environ["SUMMARY_STORE_DIR"]}/{vid}'] *)
Definition store_path {X} (vid : pystr) : io X pystr :=
  dir ← environ SUMMARY_STORE_DIR;
  mret (dir ++ lit "/" ++ vid).

Section run.
(** The LLM side: [setup_llm_from_environment] and the chain's [arun],
    which takes the texts of the documents. *)
Context {L : Type}.
Variable setup_llm_from_environment : L → result () * L.
Variable arun : list pystr → L → result pystr * L.

(** Lines 36-52, [__init__]. *)
Definition __init__ (vid : pystr) (debug : bool) : io L YoutubeSummarize :=
  if is_empty vid then raise ValueError else
  summary_file ← store_path vid;
  _ ← external setup_llm_from_environment None;
  mret {| vid := vid; debug := debug;
          url := lit "https://www.youtube.com/watch?v=" ++ vid;
          title := [];
          summary_file := summary_file;
          chain_type := lit "map_reduce";
          chunks := [] |}.

(** Lines 86-89 and 97-100: one run of the chain on the texts of
    [chunks], awaited before anything else happens. *)
Definition invoke_chain (chunks : list TranscriptChunkModel) : io L pystr :=
  let docs := List.map text chunks in
  external (arun docs) (Some (EvChain docs)).

(** Lines 94-100: the loop over [enumerate(splited_chunks)]. *)
Fixpoint detail_loop (idx : nat)
    (splited_chunks : list (list TranscriptChunkModel))
    (detail_summary : list pystr) : io L (list pystr) :=
  match splited_chunks with
  | [] => mret detail_summary
  | chunks :: rest =>
      _ ← (if (0 <? idx)%nat then sleep 3 else mret ());
      s ← invoke_chain chunks;
      detail_loop (S idx) rest (detail_summary ++ [s])
  end.

(** Lines 102-107: the [summary] dict. *)
Definition summary_dict (self : YoutubeSummarize)
    (detail_summary : list pystr) (concise_summary : pystr) : Json.value :=
  JObject [(lit "url", JString (url self));
           (lit "title", JString (title self));
           (lit "detail", JArray (List.map JString detail_summary));
           (lit "concise", JString concise_summary)].

(** Lines 109-112: the summary is written to [self.summary_file]. *)
Definition save (self : YoutubeSummarize) (summary : Json.value) : io L () :=
  is_dir ← isdir (dirname (summary_file self));
  _ ← (if negb is_dir then makedirs (dirname (summary_file self)) else mret ());
  write_file (summary_file self) (Json.dumps summary).

(** Lines 76-114, [run]. *)
Definition run (self : YoutubeSummarize) : io L Json.value :=
  concise_summary ← invoke_chain (chunks self);
  splited_chunks ← lift (_divide_chunks_by_time (chunks self) 5);
  detail_summary ← detail_loop 0 splited_chunks [];
  let summary := summary_dict self detail_summary concise_summary in
  _ ← save self summary;
  mret summary.

End run.

End Summarize.

Import Summarize.

(** ** [yts/__main__.py]: the QA session *)

Module Main.

(** The parsed command line. *)
Record Args := {
  vid : pystr;
  source : Z;
  detail : bool;
  debug : bool;
  summary : bool
}.

(** The states of the QA loop: [AwaitingQuery] is the head of the loop
    (line 26), [Answering query] is line 29 with the stripped input in
    [query], [Terminated] is after the [break]. *)
Inductive qa_state :=
| AwaitingQuery
| Answering (query : pystr)
| Terminated.

Section qa.
(** The QA backend ([yts/qa.py], not part of the sources): the
    constructor, [prepare_query], [run_query] and [get_source]. *)
Context {B : Type}.
Variable YoutubeQA : pystr → Z → bool → bool → io B ().
Variable prepare_query : io B ().
Variable run_query : pystr → B → result pystr * B.
Variable get_source : B → list source_row.

(** Lines 20-22: the stored summary, when there is one. *)
Definition read_summary (vid : pystr) : io B (option Json.value) :=
  path ← Summarize.store_path vid;
  found ← path_exists path;
  (if found : bool then
     path ← Summarize.store_path vid;
     content ← read_file path;
     summary ← lift (Json.loads content);
     mret (Some summary)
   else mret None) : io B (option Json.value).

(** Lines 20-23: the summary, when there is one, is shown. *)
Definition show_summary (vid : pystr) : io B () :=
  stored ← read_summary vid;
  match stored : option Json.value return io B () with
  | Some summary =>
      concise ← lift (Json.getitem summary (lit "concise"));
      print (OutSummary concise)
  | None => mret ()
  end.

(** Line 30, with the call recorded in the log. *)
Definition call_run_query (query : pystr) : io B pystr :=
  external (run_query query) (Some (EvQuery query)).

(** Lines 34-35. *)
Fixpoint print_sources (rows : list source_row) : io B () :=
  match rows with
  | [] => mret ()
  | row :: rest => _ ← print (OutSource row); print_sources rest
  end.

(** One transition of the loop of lines 25-36. *)
Definition qa_step (detail : bool) (st : qa_state) : io B qa_state :=
  match st with
  | AwaitingQuery =>
      line ← input (lit "Query: ");
      let query := strip line in
      (if is_empty query then mret Terminated
       else mret (Answering query)) : io B qa_state
  | Answering query =>
      _ ← print OutAnswerLabel;
      answer ← call_run_query query;
      _ ← print (OutAnswer answer);
      _ ← (if detail then
             yqa ← get_ext;
             _ ← print_sources (get_source yqa);
             print OutBlank
           else mret ());
      mret AwaitingQuery
  | Terminated => mret Terminated
  end.

(** The loop, for at most [fuel] transitions. *)
Fixpoint qa_loop (detail : bool) (fuel : nat) (st : qa_state) : io B qa_state :=
  match st, fuel with
  | Terminated, _ => mret Terminated
  | _, O => mret st
  | _, S fuel => st' ← qa_step detail st; qa_loop detail fuel st'
  end.

(** Lines 15-36, [qa]. *)
Definition qa (args : Args) (fuel : nat) : io B qa_state :=
  _ ← YoutubeQA (vid args) (source args) (detail args) (debug args);
  _ ← prepare_query;
  _ ← show_summary (vid args);
  qa_loop (detail args) fuel AwaitingQuery.

End qa.

End Main.

(** * Properties *)

(** ** The [result] monad *)

Lemma bind_Ok {A B} (a : A) (k : A → result B) : (Ok a ≫= k) = k a.
Proof. done. Qed.

Lemma bind_Raise {A B} (e : exn) (k : A → result B) : (Raise e ≫= k) = Raise e.
Proof. done. Qed.

Lemma bind_Ok_inv {A B} (r : result A) (k : A → result B) (b : B) :
  (r ≫= k) = Ok b → ∃ a, r = Ok a ∧ k a = Ok b.
Proof. destruct r as [a|e]; [by exists a | done]. Qed.

(** ** Arithmetic of the bucket index *)

Section bucket_index.

Lemma int_inject_Z (z : Z) : int (inject_Z z) = z.
Proof. unfold int, inject_Z; simpl. apply Z.quot_1_r. Qed.

Lemma floordiv_nonzero (a b : Q) :
  ¬ (b == 0)%Q → floordiv a b = Ok (inject_Z (Qfloor (a / b))).
Proof.
  intros Hb. unfold floordiv.
  destruct (Qeq_bool b 0) eqn:E; [|done].
  apply Qeq_bool_iff in E. contradiction.
Qed.

Lemma floordiv_zero (a b : Q) : (b == 0)%Q → floordiv a b = Raise ZeroDivisionError.
Proof.
  intros Hb. unfold floordiv.
  apply Qeq_bool_iff in Hb. by rewrite Hb.
Qed.

Lemma floordiv_inv (a b q : Q) :
  floordiv a b = Ok q → ¬ (b == 0)%Q ∧ q = inject_Z (Qfloor (a / b)).
Proof.
  unfold floordiv. destruct (Qeq_bool b 0) eqn:E; [done|].
  intros [= <-]. split; [|done].
  intros Hb. apply Qeq_bool_iff in Hb. congruence.
Qed.

Lemma inject_Z_nonzero (z : Z) : z ≠ 0 → ¬ (inject_Z z == 0)%Q.
Proof. intros Hz H. unfold Qeq in H; simpl in H. lia. Qed.

(** The index the code computes, as a total function of the chunk. *)
Definition clamped_index (split_num : Z) (delta : Q)
    (tc : TranscriptChunkModel) : Z :=
  Z.min (Qfloor (start tc / delta)) split_num.

Lemma bucket_index_nonzero split_num delta tc :
  ¬ (delta == 0)%Q →
  bucket_index split_num delta tc = Ok (clamped_index split_num delta tc).
Proof.
  intros Hd. unfold bucket_index, clamped_index.
  rewrite floordiv_nonzero, bind_Ok, int_inject_Z by done.
  f_equal. destruct (Z.ltb_spec (Qfloor (start tc / delta)) split_num); lia.
Qed.



Lemma Qfloor_div_nonneg (s : Q) (w : Z) :
  0 < w → (0 <= s)%Q → 0 ≤ Qfloor (s / inject_Z w).
Proof.
  intros Hw Hs.
  assert (Hw' : (0 < inject_Z w)%Q) by (unfold Qlt, inject_Z; simpl; lia).
  rewrite <- (Qfloor_Z 0). apply Qfloor_resp_le.
  apply Qle_shift_div_l; [done|]. by rewrite Qmult_0_l.
Qed.

End bucket_index.

(** ** Bucketing: what the loop does to the buckets *)

Section bucketing.
Implicit Types (tc : TranscriptChunkModel) (chunks : list TranscriptChunkModel)
  (splited : list (list TranscriptChunkModel)).

Lemma index_lt (len : nat) (i : Z) (pos : nat) :
  index len i = Ok pos → (pos < len)%nat.
Proof.
  unfold index. intros H.
  destruct (Z.leb_spec 0 i).
  - destruct (Z.ltb_spec i (Z.of_nat len)); [|done].
    injection H as <-. lia.
  - destruct (Z.leb_spec 0 (Z.of_nat len + i)); [|done].
    injection H as <-. lia.
Qed.

Lemma index_nonneg (len : nat) (i : Z) :
  0 ≤ i < Z.of_nat len → index len i = Ok (Z.to_nat i).
Proof.
  intros [H1 H2]. unfold index.
  destruct (Z.leb_spec 0 i); [|lia].
  destruct (Z.ltb_spec i (Z.of_nat len)); [done|lia].
Qed.

Lemma concat_alter_snoc splited (i : nat) tc :
  (i < length splited)%nat →
  concat (alter (λ sc, sc ++ [tc]) i splited) ≡ₚ tc :: concat splited.
Proof.
  revert i. induction splited as [|sc splited IH]; intros i Hi; simpl in *; [lia|].
  destruct i as [|i]; simpl.
  - rewrite <- app_assoc. simpl.
    by rewrite <- Permutation_middle.
  - change (list_alter ?f ?i ?l) with (alter f i l).
    rewrite IH by lia. by rewrite Permutation_middle.
Qed.

Lemma divide_step_inv split_num delta splited tc splited' :
  divide_step split_num delta splited tc = Ok splited' →
  ∃ idx pos grown,
    bucket_index split_num delta tc = Ok idx ∧
    grown = (if Z.of_nat (length splited) <? idx + 1
             then splited ++ [[]] else splited) ∧
    index (length grown) idx = Ok pos ∧
    splited' = alter (λ sc, sc ++ [tc]) pos grown.
Proof.
  unfold divide_step. intros H.
  apply bind_Ok_inv in H as (idx & Hidx & H).
  apply bind_Ok_inv in H as (pos & Hpos & H).
  injection H as <-. eexists idx, pos, _. done.
Qed.

Lemma divide_step_perm split_num delta splited tc splited' :
  divide_step split_num delta splited tc = Ok splited' →
  concat splited' ≡ₚ tc :: concat splited.
Proof.
  intros (idx & pos & grown & _ & Hg & Hpos & ->)%divide_step_inv.
  apply index_lt in Hpos. rewrite concat_alter_snoc by done.
  rewrite Hg. destruct (_ <? _); [|done].
  by rewrite concat_app, app_nil_r.
Qed.

Lemma divide_loop_perm split_num delta chunks splited splited' :
  divide_loop split_num delta splited chunks = Ok splited' →
  concat splited' ≡ₚ concat splited ++ chunks.
Proof.
  revert splited. induction chunks as [|tc chunks IH]; intros splited; simpl.
  - intros [= <-]. by rewrite app_nil_r.
  - intros (s1 & Hs1 & Hloop)%bind_Ok_inv.
    rewrite (IH _ Hloop), (divide_step_perm _ _ _ _ _ Hs1).
    by rewrite <- Permutation_middle.
Qed.

Lemma concat_filter_nonempty splited :
  concat (filter (λ sc, (0 < length sc)%nat) splited) = concat splited.
Proof.
  induction splited as [|sc splited IH]; [done|].
  rewrite filter_cons. destruct (decide _) as [H|H]; simpl.
  - by rewrite IH.
  - destruct sc; simpl in *; [done|lia].
Qed.

Lemma concat_replicate_nil (n : nat) :
  concat (replicate n ([] : list TranscriptChunkModel)) = [].
Proof. induction n; simpl; done. Qed.

Lemma divide_inv chunks split_num out :
  _divide_chunks_by_time chunks split_num = Ok out →
  ∃ last_chunk delta splited,
    last_item chunks = Ok last_chunk ∧
    floordiv (total_time last_chunk) (inject_Z split_num) = Ok delta ∧
    divide_loop split_num delta (replicate (Z.to_nat split_num) []) chunks
      = Ok splited ∧
    out = filter (λ sc, (0 < length sc)%nat) splited.
Proof.
  unfold _divide_chunks_by_time. intros H.
  apply bind_Ok_inv in H as (last_chunk & Hlast & H).
  apply bind_Ok_inv in H as (delta & Hdelta & H).
  apply bind_Ok_inv in H as (splited & Hloop & H).
  injection H as <-. by exists last_chunk, delta, splited.
Qed.

Lemma divide_perm chunks split_num out :
  _divide_chunks_by_time chunks split_num = Ok out →
  concat out ≡ₚ chunks.
Proof.
  intros (last_chunk & delta & splited & _ & _ & Hloop & ->)%divide_inv.
  rewrite concat_filter_nonempty, (divide_loop_perm _ _ _ _ _ Hloop).
  by rewrite concat_replicate_nil.
Qed.

Lemma divide_nonempty_buckets chunks split_num out :
  _divide_chunks_by_time chunks split_num = Ok out →
  Forall (λ sc, sc ≠ []) out.
Proof.
  intros (last_chunk & delta & splited & _ & _ & _ & ->)%divide_inv.
  apply Forall_forall. intros sc [Hsc _]%list_elem_of_filter.
  destruct sc; simpl in *; [lia|done].
Qed.

(** *** Chunks with non-negative indices: the buckets in closed form *)

Definition bucket_at (split_num : Z) (delta : Q) chunks (k : Z)
    : list TranscriptChunkModel :=
  filter (λ tc, clamped_index split_num delta tc = k) chunks.

Definition buckets_upto (split_num : Z) (delta : Q) chunks (m : Z)
    : list (list TranscriptChunkModel) :=
  bucket_at split_num delta chunks <$> seqZ 0 m.

#[local] Arguments bucket_at : simpl never.
#[local] Arguments buckets_upto : simpl never.
#[local] Arguments clamped_index : simpl never.

Lemma bucket_at_snoc split_num delta chunks tc k :
  bucket_at split_num delta (chunks ++ [tc]) k =
  bucket_at split_num delta chunks k ++
    (if decide (clamped_index split_num delta tc = k) then [tc] else []).
Proof.
  unfold bucket_at. by rewrite filter_app.
Qed.

Lemma clamped_index_le split_num delta tc :
  clamped_index split_num delta tc ≤ split_num.
Proof. unfold clamped_index. lia. Qed.

Lemma alter_buckets_upto split_num delta chunks tc (m : Z) :
  0 ≤ clamped_index split_num delta tc < m →
  alter (λ sc, sc ++ [tc]) (Z.to_nat (clamped_index split_num delta tc))
    (buckets_upto split_num delta chunks m) =
  buckets_upto split_num delta (chunks ++ [tc]) m.
Proof.
  intros Hidx. apply list_eq. intros i. unfold buckets_upto.
  destruct (decide (Z.to_nat (clamped_index split_num delta tc) = i)) as [<-|Hne].
  - rewrite list_lookup_alter_eq, !list_lookup_fmap.
    rewrite lookup_seqZ_lt by lia. simpl.
    rewrite bucket_at_snoc, decide_True by lia. done.
  - rewrite list_lookup_alter_ne, !list_lookup_fmap by done.
    destruct (decide (Z.of_nat i < m)) as [Hi|Hi].
    + rewrite lookup_seqZ_lt by lia. simpl.
      rewrite bucket_at_snoc, decide_False by lia. by rewrite app_nil_r.
    + by rewrite lookup_seqZ_ge by lia.
Qed.

Lemma buckets_upto_succ split_num delta chunks (m : Z) :
  0 ≤ m →
  buckets_upto split_num delta chunks (m + 1) =
  buckets_upto split_num delta chunks m ++ [bucket_at split_num delta chunks m].
Proof.
  intros Hm. unfold buckets_upto.
  rewrite seqZ_app by lia. rewrite fmap_app. f_equal.
Qed.

Lemma length_buckets_upto split_num delta chunks (m : Z) :
  length (buckets_upto split_num delta chunks m) = Z.to_nat m.
Proof. unfold buckets_upto. by rewrite length_fmap, length_seqZ. Qed.

(** How many buckets there are after the chunks seen so far: one more
    than [split_num] as soon as a chunk has been given index [split_num]. *)
Definition grown_to (split_num : Z) (delta : Q) chunks : Z :=
  if decide (bucket_at split_num delta chunks split_num = [])
  then split_num else split_num + 1.

Lemma grown_to_snoc split_num delta seen tc :
  grown_to split_num delta (seen ++ [tc]) =
  if decide (clamped_index split_num delta tc = split_num)
  then split_num + 1 else grown_to split_num delta seen.
Proof.
  unfold grown_to. rewrite bucket_at_snoc.
  destruct (decide (clamped_index _ _ _ = _)).
  - apply decide_False. by destruct (bucket_at _ _ _ _).
  - by rewrite app_nil_r.
Qed.

Lemma grown_to_range split_num delta seen :
  split_num ≤ grown_to split_num delta seen ≤ split_num + 1.
Proof. unfold grown_to. destruct (decide _); lia. Qed.

Lemma divide_step_nonneg split_num delta seen tc :
  ¬ (delta == 0)%Q → 0 ≤ split_num →
  0 ≤ clamped_index split_num delta tc →
  divide_step split_num delta
    (buckets_upto split_num delta seen (grown_to split_num delta seen)) tc =
  Ok (buckets_upto split_num delta (seen ++ [tc])
        (grown_to split_num delta (seen ++ [tc]))).
Proof.
  intros Hd Hn Hidx. unfold divide_step.
  rewrite bucket_index_nonzero, bind_Ok by done.
  pose proof (clamped_index_le split_num delta tc) as Hle.
  pose proof (grown_to_range split_num delta seen) as Hrange.
  rewrite length_buckets_upto, grown_to_snoc.
  destruct (Z.ltb_spec (Z.of_nat (Z.to_nat (grown_to split_num delta seen)))
              (clamped_index split_num delta tc + 1)) as [Hlt|Hge].
  - assert (Hg : grown_to split_num delta seen = split_num) by lia.
    assert (He : bucket_at split_num delta seen split_num = []).
    { revert Hg. unfold grown_to. destruct (decide _); [done|lia]. }
    rewrite decide_True by lia. rewrite Hg.
    replace (buckets_upto split_num delta seen split_num ++ [[]])
      with (buckets_upto split_num delta seen (split_num + 1))
      by (by rewrite buckets_upto_succ, He by done).
    rewrite length_buckets_upto, index_nonneg, bind_Ok by lia.
    by rewrite alter_buckets_upto by lia.
  - rewrite length_buckets_upto, index_nonneg, bind_Ok by lia.
    rewrite alter_buckets_upto by lia.
    destruct (decide _) as [Heq|Hne]; [|done].
    do 2 f_equal. lia.
Qed.

Lemma divide_loop_nonneg split_num delta seen chunks :
  ¬ (delta == 0)%Q → 0 ≤ split_num →
  Forall (λ tc, 0 ≤ clamped_index split_num delta tc) chunks →
  divide_loop split_num delta
    (buckets_upto split_num delta seen (grown_to split_num delta seen)) chunks =
  Ok (buckets_upto split_num delta (seen ++ chunks)
        (grown_to split_num delta (seen ++ chunks))).
Proof.
  intros Hd Hn. revert seen.
  induction chunks as [|tc chunks IH]; intros seen Hall; simpl.
  - by rewrite app_nil_r.
  - apply Forall_cons in Hall as [Htc Hall].
    rewrite divide_step_nonneg, bind_Ok by done.
    rewrite IH by done. by rewrite <- app_assoc.
Qed.

Lemma filter_buckets_grown split_num delta chunks :
  0 ≤ split_num →
  filter (λ sc, (0 < length sc)%nat)
    (buckets_upto split_num delta chunks (grown_to split_num delta chunks)) =
  filter (λ sc, (0 < length sc)%nat)
    (buckets_upto split_num delta chunks (split_num + 1)).
Proof.
  intros Hn. unfold grown_to. destruct (decide _) as [He|He]; [|done].
  rewrite buckets_upto_succ, filter_app, He by done.
  rewrite filter_cons_False by (simpl; lia).
  by rewrite filter_nil, app_nil_r.
Qed.

(** The result on chunks whose indices are not negative: the buckets
    [0], ..., [split_num], those that are empty left out. *)
Lemma divide_nonneg chunks split_num last_chunk delta :
  last_item chunks = Ok last_chunk →
  floordiv (total_time last_chunk) (inject_Z split_num) = Ok delta →
  ¬ (delta == 0)%Q → 0 ≤ split_num →
  Forall (λ tc, 0 ≤ clamped_index split_num delta tc) chunks →
  _divide_chunks_by_time chunks split_num =
  Ok (filter (λ sc, (0 < length sc)%nat)
        (buckets_upto split_num delta chunks (split_num + 1))).
Proof.
  intros Hlast Hdelta Hd Hn Hall. unfold _divide_chunks_by_time.
  rewrite Hlast, bind_Ok, Hdelta, bind_Ok.
  replace (replicate (Z.to_nat split_num) [])
    with (buckets_upto split_num delta [] (grown_to split_num delta [])).
  - rewrite divide_loop_nonneg, bind_Ok by done. simpl.
    by rewrite filter_buckets_grown.
  - unfold grown_to, bucket_at. rewrite filter_nil. rewrite decide_True by done.
    unfold buckets_upto. apply list_eq. intros i.
    rewrite list_lookup_fmap.
    destruct (decide (Z.of_nat i < split_num)).
    + rewrite lookup_seqZ_lt, lookup_replicate_2 by lia. done.
    + rewrite lookup_seqZ_ge by lia. simpl. symmetry.
      apply lookup_replicate_None. lia.
Qed.

End bucketing.

(** ** Bucketing: the claims *)

Section bucketing_claims.
Implicit Types (tc : TranscriptChunkModel) (chunks : list TranscriptChunkModel)
  (splited : list (list TranscriptChunkModel)).

Lemma last_item_nil {A} : last_item ([] : list A) = Raise IndexError.
Proof. done. Qed.

Lemma last_item_nonempty {A} (l : list A) :
  l ≠ [] → ∃ x, last_item l = Ok x ∧ x ∈ l.
Proof.
  intros Hl. unfold last_item. destruct (last l) as [x|] eqn:E.
  - exists x. split; [done|]. by apply last_Some_elem_of.
  - by apply last_None in E.
Qed.


Lemma sum_length_concat splited :
  sum_list (length <$> splited) = length (concat splited).
Proof.
  induction splited as [|sc splited IH]; [done|].
  rewrite fmap_cons. simpl. rewrite length_app. by rewrite <- IH.
Qed.

Lemma elem_of_concat splited sc tc :
  sc ∈ splited → tc ∈ sc → tc ∈ concat splited.
Proof.
  rewrite !list_elem_of_In, in_concat. intros H1 H2. by exists sc.
Qed.

Lemma concat_NoDup_disjoint splited (i j : nat) sc1 sc2 tc :
  NoDup (concat splited) →
  splited !! i = Some sc1 → splited !! j = Some sc2 →
  tc ∈ sc1 → tc ∈ sc2 → i = j.
Proof.
  revert i j. induction splited as [|sc splited IH]; intros i j Hnd Hi Hj H1 H2.
  - done.
  - simpl in Hnd. apply NoDup_app in Hnd as (_ & Hdisj & Hnd).
    destruct i as [|i], j as [|j]; simpl in *.
    + done.
    + injection Hi as ->. exfalso. apply (Hdisj tc H1).
      apply (elem_of_concat _ sc2); [|done].
      by eapply list_elem_of_lookup_2.
    + injection Hj as ->. exfalso. apply (Hdisj tc H2).
      apply (elem_of_concat _ sc1); [|done].
      by eapply list_elem_of_lookup_2.
    + f_equal. by eapply IH.
Qed.


Lemma clamped_index_nonneg split_num (w : Z) tc :
  0 < w → 0 ≤ split_num → (0 <= start tc)%Q →
  0 ≤ clamped_index split_num (inject_Z w) tc.
Proof.
  intros Hw Hn Hs. unfold clamped_index.
  pose proof (Qfloor_div_nonneg (start tc) w Hw Hs). lia.
Qed.

(** Ten chunks that start every ten seconds from 0 to 90; each lasts ten
    seconds but the last, which lasts three. *)
Definition scenario_chunk (i : Z) : TranscriptChunkModel :=
  {| id := lit "vid-" ++ [Z.to_N (48 + i)];
     text := lit "text " ++ [Z.to_N (48 + i)];
     start := inject_Z (10 * i);
     duration := inject_Z (if i <? 9 then 10 else 3) |}.

Definition scenario_chunks : list TranscriptChunkModel :=
  scenario_chunk <$> seqZ 0 10.



(** C2: when bucketing a non-empty chunk list succeeds, the buckets hold
    as many chunks as the input, the chunks of the buckets are those of
    the input, each as often as it occurs there, and, the input chunks
    being distinct, no chunk is in two buckets. *)
Theorem bucketing_keeps_every_chunk_once chunks split_num out :
  chunks ≠ [] →
  _divide_chunks_by_time chunks split_num = Ok out →
  sum_list (length <$> out) = length chunks ∧
  concat out ≡ₚ chunks ∧
  (NoDup chunks →
   ∀ (i j : nat) sc1 sc2 tc,
     out !! i = Some sc1 → out !! j = Some sc2 →
     tc ∈ sc1 → tc ∈ sc2 → i = j).
Proof.
  intros _ Hout. pose proof (divide_perm _ _ _ Hout) as Hperm.
  split; [|split].
  - by rewrite sum_length_concat, Hperm.
  - done.
  - intros Hnd i j sc1 sc2 tc. apply concat_NoDup_disjoint.
    by rewrite Hperm.
Qed.

Lemma bucketing_keeps_every_chunk_once_witness :
  ∃ out, _divide_chunks_by_time scenario_chunks 5 = Ok out ∧
         sum_list (length <$> out) = 10%nat ∧
         concat out ≡ₚ scenario_chunks.
Proof.
  eexists. split; [by vm_compute|].
  destruct (bucketing_keeps_every_chunk_once scenario_chunks 5 _
              ltac:(discriminate) ltac:(by vm_compute)) as (H1 & H2 & _).
  split; [exact H1|exact H2].
Defined.




(** *** The scenario of ten chunks from 0 to 90 seconds *)







End bucketing_claims.

(** ** The [io] monad *)

Lemma io_bind_eq {X A B} (m : io X A) (k : A → io X B) (σ : state X) :
  (m ≫= k) σ =
  match m σ with
  | (Ok a, σ') => k a σ'
  | (Raise e, σ') => (Raise e, σ')
  end.
Proof. done. Qed.

Lemma io_ret_eq {X A} (a : A) (σ : state X) : (mret a : io X A) σ = (Ok a, σ).
Proof. done. Qed.

(** ** The summarization run *)

Section run_facts.
Context {L : Type}.
Variable arun : list pystr → L → result pystr * L.
Implicit Types (σ : state L) (self : YoutubeSummarize).

(** What a run of the chain leaves behind: only the state of the LLM and
    the log change. *)
Definition after_chain σ (docs : list pystr) (r : result pystr) (x : L)
    : state L :=
  State (env σ) (files σ) (dirs σ) (stdin σ) (stdout σ)
    (trace σ ++ [EvChain docs r]) x.

Lemma invoke_chain_eq chunks σ :
  invoke_chain arun chunks σ =
  ((arun (text <$> chunks) (ext σ)).1,
   after_chain σ (text <$> chunks) (arun (text <$> chunks) (ext σ)).1
     (arun (text <$> chunks) (ext σ)).2).
Proof.
  unfold invoke_chain, external, after_chain.
  by destruct (arun _ _).
Qed.

(** The calls of the detail phase: one run of the chain per bucket, in the
    order of the buckets, three seconds of sleep before each but the
    first. *)
Fixpoint detail_events (idx : nat) (buckets : list (list TranscriptChunkModel))
    (details : list pystr) : list event :=
  match buckets, details with
  | b :: buckets, d :: details =>
      (if (0 <? idx)%nat then [EvSleep 3] else []) ++
      EvChain (text <$> b) (Ok d) :: detail_events (S idx) buckets details
  | _, _ => []
  end.


Definition is_failed_call (ev : event) : Prop :=
  match ev with EvChain _ (Raise _) => True | _ => False end.


Lemma detail_events_not_failed idx buckets details :
  Forall (λ ev, ¬ is_failed_call ev) (detail_events idx buckets details).
Proof.
  revert idx details.
  induction buckets as [|b buckets IH]; intros idx [|d details]; simpl;
    try by constructor.
  apply Forall_app. split.
  - destruct (0 <? idx)%nat; repeat constructor. by intros [].
  - constructor; [by intros []|apply IH].
Qed.

(** A state that differs from [σ] in the LLM and in the log only, the log
    being longer by [evs]. *)
Definition logged σ (evs : list event) σ' : Prop :=
  env σ' = env σ ∧ files σ' = files σ ∧ dirs σ' = dirs σ ∧
  stdin σ' = stdin σ ∧ stdout σ' = stdout σ ∧
  trace σ' = trace σ ++ evs.

Lemma logged_refl σ : logged σ [] σ.
Proof. unfold logged. by rewrite app_nil_r. Qed.

Lemma logged_trans σ1 σ2 σ3 evs1 evs2 :
  logged σ1 evs1 σ2 → logged σ2 evs2 σ3 → logged σ1 (evs1 ++ evs2) σ3.
Proof.
  unfold logged. intros (?&?&?&?&?&?) (?&?&?&?&?&?).
  repeat split; try congruence.
  rewrite app_assoc. congruence.
Qed.

Lemma logged_after_chain σ docs r x :
  logged σ [EvChain docs r] (after_chain σ docs r x).
Proof. done. Qed.

Lemma logged_sleep σ secs : logged σ [EvSleep secs] (sleep secs σ).2.
Proof. done. Qed.

(** The loop over the buckets either goes through all of them, or stops at
    the first run of the chain that raises, with that exception. *)
Lemma detail_loop_spec buckets idx acc σ r σ' :
  detail_loop arun idx buckets acc σ = (r, σ') →
  ∃ evs, logged σ evs σ' ∧
    match r with
    | Ok detail_summary =>
        ∃ details, detail_summary = acc ++ details ∧
                   length details = length buckets ∧
                   evs = detail_events idx buckets details
    | Raise e =>
        ∃ evs0 docs, evs = evs0 ++ [EvChain docs (Raise e)] ∧
                     Forall (λ ev, ¬ is_failed_call ev) evs0
    end.
Proof.
  revert idx acc σ.
  induction buckets as [|b buckets IH]; intros idx acc σ; simpl.
  - rewrite io_ret_eq. intros [= <- <-]. exists []. split; [apply logged_refl|].
    exists []. by rewrite app_nil_r.
  - rewrite io_bind_eq.
    set (pre := if (0 <? idx)%nat then [EvSleep 3] else []).
    assert (Hpre : ∃ σ1, (if (0 <? idx)%nat then sleep 3 else mret ()) σ = (Ok (), σ1)
                         ∧ logged σ pre σ1).
    { unfold pre. destruct (0 <? idx)%nat.
      - eexists. split; [done|]. apply logged_sleep.
      - eexists. split; [done|]. apply logged_refl. }
    destruct Hpre as (σ1 & -> & Hlog1).
    rewrite io_bind_eq, invoke_chain_eq.
    destruct (arun (text <$> b) (ext σ1)) as [[s|e] x]; simpl.
    + intros Hloop. apply IH in Hloop as (evs & Hlog & Hr).
      exists (pre ++ [EvChain (text <$> b) (Ok s)] ++ evs). split.
      { eapply logged_trans; [exact Hlog1|].
        eapply logged_trans; [apply logged_after_chain|exact Hlog]. }
      destruct r as [detail_summary|e].
      * destruct Hr as (details & -> & Hlen & ->).
        exists (s :: details). rewrite <- app_assoc. simpl.
        by rewrite Hlen.
      * destruct Hr as (evs0 & docs & -> & Hall).
        exists (pre ++ [EvChain (text <$> b) (Ok s)] ++ evs0), docs.
        split; [by rewrite <- !app_assoc|].
        apply Forall_app. split.
        { unfold pre. destruct (0 <? idx)%nat; repeat constructor. by intros []. }
        apply Forall_app. split; [|done]. repeat constructor. by intros [].
    + intros [= <- <-].
      exists (pre ++ [EvChain (text <$> b) (Raise e)]). split.
      { eapply logged_trans; [exact Hlog1|apply logged_after_chain]. }
      exists pre, (text <$> b). split; [done|].
      unfold pre. destruct (0 <? idx)%nat; repeat constructor. by intros [].
Qed.

(** Saving touches the files and the directories only. *)
Lemma save_frame self summary σ r σ' :
  save self summary σ = (r, σ') →
  env σ' = env σ ∧ stdin σ' = stdin σ ∧ stdout σ' = stdout σ ∧
  trace σ' = trace σ ∧ ext σ' = ext σ.
Proof.
  unfold save. rewrite io_bind_eq. unfold isdir at 1.
  rewrite io_bind_eq. case_bool_decide; simpl.
  - unfold write_file. destruct (_ || _); by intros [= <- <-].
  - unfold makedirs. case_bool_decide; [by intros [= <- <-]|].
    unfold write_file. simpl. destruct (_ || _); by intros [= <- <-].
Qed.

(** What [save] does when it goes through. *)
Lemma save_Ok self summary σ σ' :
  save self summary σ = (Ok (), σ') →
  files σ' = <[summary_file self := Json.dumps summary]> (files σ) ∧
  dirs σ' = {[dirname (summary_file self)]} ∪ dirs σ ∧
  summary_file self ∉ dirs σ'.
Proof.
  unfold save. rewrite io_bind_eq. unfold isdir at 1.
  rewrite io_bind_eq. case_bool_decide as Hd; simpl.
  - unfold write_file. case_bool_decide as Hf; simpl; [done|].
    destruct (negb _); [done|]. intros [= <-]. simpl.
    split; [done|]. split; [|done].
    apply set_eq. intros p. rewrite elem_of_union, elem_of_singleton.
    split; [tauto|]. intros [->|Hp]; done.
  - unfold makedirs. case_bool_decide; [done|].
    unfold write_file. simpl. case_bool_decide as Hf; simpl; [done|].
    destruct (negb _); [done|]. by intros [= <-].
Qed.

(** The four ways a run can go. *)
Lemma run_spec self σ r σ' :
  run arun self σ = (r, σ') →
  ∃ evs σ2, logged σ evs σ2 ∧
    ((∃ e evs0 docs,
        r = Raise e ∧ σ' = σ2 ∧
        evs = evs0 ++ [EvChain docs (Raise e)] ∧
        Forall (λ ev, ¬ is_failed_call ev) evs0) ∨
     (∃ e concise,
        r = Raise e ∧ σ' = σ2 ∧
        evs = [EvChain (text <$> chunks self) (Ok concise)] ∧
        _divide_chunks_by_time (chunks self) 5 = Raise e) ∨
     (∃ concise buckets details rs,
        evs = EvChain (text <$> chunks self) (Ok concise) ::
              detail_events 0 buckets details ∧
        _divide_chunks_by_time (chunks self) 5 = Ok buckets ∧
        length details = length buckets ∧
        save self (summary_dict self details concise) σ2 = (rs, σ') ∧
        r = (rs ≫= λ _, Ok (summary_dict self details concise)))).
Proof.
  unfold run. rewrite io_bind_eq, invoke_chain_eq.
  destruct (arun (text <$> chunks self) (ext σ)) as [[concise|e] x]; simpl.
  - rewrite io_bind_eq. unfold lift at 1.
    destruct (_divide_chunks_by_time (chunks self) 5) as [buckets|e] eqn:Hdiv.
    + rewrite io_bind_eq.
      destruct (detail_loop arun 0 buckets [] _) as [rd σ2] eqn:Hloop.
      apply detail_loop_spec in Hloop as (evs & Hlog & Hr).
      destruct rd as [detail_summary|e].
      * destruct Hr as (details & -> & Hlen & ->). simpl.
        rewrite io_bind_eq.
        destruct (save self _ σ2) as [rs σ3] eqn:Hsave.
        intros Hres. eexists _, σ2. split.
        { eapply logged_trans; [apply logged_after_chain|exact Hlog]. }
        right. right. exists concise, buckets, details, rs.
        split; [done|]. split; [done|]. split; [done|].
        destruct rs as [[]|e]; injection Hres as <- <-; by rewrite Hsave.
      * destruct Hr as (evs0 & docs & -> & Hall).
        intros [= <- <-]. eexists _, σ2. split.
        { eapply logged_trans; [apply logged_after_chain|exact Hlog]. }
        left. exists e, (EvChain (text <$> chunks self) (Ok concise) :: evs0), docs.
        split; [done|]. split; [done|]. split; [done|].
        constructor; [by intros []|done].
    + intros [= <- <-]. eexists _, _. split; [apply logged_after_chain|].
      right. left. by exists e, concise.
  - intros [= <- <-]. eexists _, _. split; [apply logged_after_chain|].
    left. exists e, [], (text <$> chunks self). by split.
Qed.

Lemma drop_trace_logged σ evs σ' :
  logged σ evs σ' → drop (length (trace σ)) (trace σ') = evs.
Proof.
  intros (_&_&_&_&_&->). by rewrite drop_app_length.
Qed.

(** C4: when a run of the chain raises during [run], be it the first one
    or one for a later bucket, [run] raises that exception, and no file
    or directory has been created or changed: the summary file is as it
    was, and the concise summary obtained before is gone with the
    exception. *)
Theorem failed_chain_call_persists_nothing self σ r σ' docs err :
  run arun self σ = (r, σ') →
  EvChain docs (Raise err) ∈ drop (length (trace σ)) (trace σ') →
  r = Raise err ∧
  files σ' = files σ ∧
  dirs σ' = dirs σ ∧
  files σ' !! summary_file self = files σ !! summary_file self.
Proof.
  intros Hrun Hin.
  apply run_spec in Hrun as (evs & σ2 & Hlog & Hcases).
  destruct Hcases as [(e & evs0 & docs' & -> & -> & -> & Hall)
                     |[(e & concise & -> & -> & -> & _)
                      |(concise & buckets & details & rs & -> & _ & _ & Hsave & _)]].
  - rewrite (drop_trace_logged _ _ _ Hlog) in Hin.
    apply elem_of_app in Hin as [Hin|Hin].
    + rewrite Forall_forall in Hall. by destruct (Hall _ Hin).
    + apply list_elem_of_singleton in Hin. injection Hin as -> ->.
      destruct Hlog as (_ & Hf & Hd & _). by rewrite Hf, Hd.
  - rewrite (drop_trace_logged _ _ _ Hlog) in Hin.
    apply list_elem_of_singleton in Hin. done.
  - exfalso. apply save_frame in Hsave as (_ & _ & _ & Htr & _).
    destruct Hlog as (_ & _ & _ & _ & _ & Ht).
    rewrite Htr, Ht, drop_app_length in Hin.
    apply elem_of_cons in Hin as [Hin|Hin]; [done|].
    pose proof (detail_events_not_failed 0 buckets details) as Hall.
    rewrite Forall_forall in Hall. by destruct (Hall _ Hin).
Qed.


End run_facts.

(** ** A sample run *)

Section sample_run.

(** The summarizer of video [abc] after [prepare], with the ten chunks of
    the scenario. *)
Definition sample_self : YoutubeSummarize :=
  {| Summarize.vid := lit "abc";
     Summarize.debug := false;
     url := lit "https://www.youtube.com/watch?v=abc";
     title := lit "A talk";
     summary_file := lit "store/abc";
     chain_type := lit "map_reduce";
     chunks := scenario_chunks |}.

(** A world in which an older summary of the video is stored; the LLM is
    the number of runs of the chain so far. *)
Definition sample_world : state nat :=
  State {[SUMMARY_STORE_DIR := lit "store"]}
    {[lit "store/abc" := lit "old summary"]}
    {[lit "store"]} [] [] [] 0%nat.

(** A chain that answers every run. *)
Definition steady_arun (docs : list pystr) (n : nat) : result pystr * nat :=
  (Ok (lit "summary " ++ [N.of_nat (48 + n)]), S n).

(** A chain whose provider fails at the fourth run, the run for the
    third bucket. *)
Definition failing_arun (docs : list pystr) (n : nat) : result pystr * nat :=
  if (n =? 3)%nat then (Raise (External (lit "rate limit")), S n)
  else steady_arun docs n.

Lemma failed_chain_call_persists_nothing_witness :
  (run failing_arun sample_self sample_world).1 =
    Raise (External (lit "rate limit")) ∧
  files (run failing_arun sample_self sample_world).2 !! lit "store/abc" =
    Some (lit "old summary").
Proof.
  destruct (failed_chain_call_persists_nothing failing_arun sample_self
              sample_world
              (run failing_arun sample_self sample_world).1
              (run failing_arun sample_self sample_world).2
              (text <$> [scenario_chunk 4; scenario_chunk 5])
              (External (lit "rate limit")))
    as (Hr & _ & _ & Hfile).
  - by destruct (run _ _ _).
  - apply (list_elem_of_lookup_2 _ 5%nat). by vm_compute.
  - split; [exact Hr|]. etrans; [exact Hfile|]. by vm_compute.
Defined.


End sample_run.

(** ** JSON: what is written is read back *)

Section json_roundtrip.
Implicit Types (s rest : pystr) (c : N) (v : value).

Lemma hexval_hexchar (d : N) : (d < 16)%N → hexval (hexchar d) = Some d.
Proof.
  intros Hd. unfold hexval, hexchar.
  destruct (N.ltb_spec d 10).
  - destruct (N.leb_spec 48 (48 + d)); [|lia].
    destruct (N.leb_spec (48 + d) 57); [|lia].
    simpl. f_equal. lia.
  - destruct (N.leb_spec 48 (87 + d)); [|lia].
    destruct (N.leb_spec (87 + d) 57); [lia|].
    destruct (N.leb_spec 97 (87 + d)); [|lia].
    destruct (N.leb_spec (87 + d) 102); [|lia].
    simpl. f_equal. lia.
Qed.

Lemma hex4_control c :
  (c < 32)%N → hex4 48 48 (hexchar (c / 16)) (hexchar (c mod 16)) = Some c.
Proof.
  intros Hc. unfold hex4.
  assert (Hq : (c / 16 < 16)%N).
  { apply N.Div0.div_lt_upper_bound. lia. }
  assert (Hm : (c mod 16 < 16)%N) by (apply N.mod_lt; lia).
  rewrite (hexval_hexchar _ Hq), (hexval_hexchar _ Hm).
  change (hexval 48) with (Some 0%N). simpl. f_equal.
  pose proof (N.div_mod c 16 ltac:(lia)). lia.
Qed.

(** One step of [scanstring] on a character written as it is. *)
Lemma scanstring_literal c rest :
  c ≠ quote → c ≠ backslash → (32 ≤ c)%N →
  scanstring (c :: rest) = scanstring rest ≫= λ p, Ok (c :: p.1, p.2).
Proof.
  intros Hq Hb Hc. simpl.
  rewrite (proj2 (N.eqb_neq c quote) Hq).
  rewrite (proj2 (N.eqb_neq c backslash) Hb).
  by rewrite (proj2 (N.ltb_ge c 32) Hc).
Qed.

(** One step of [scanstring] on a one-letter escape. *)
Lemma scanstring_escape (e c : N) rest :
  e ≠ 117%N → unescape e = Some c →
  scanstring (backslash :: e :: rest) = scanstring rest ≫= λ p, Ok (c :: p.1, p.2).
Proof.
  intros He Hu. simpl.
  rewrite (proj2 (N.eqb_neq e 117) He). by rewrite Hu.
Qed.

(** One step of [scanstring] on a [\uXXXX] escape that is not the first
    half of a surrogate pair. *)
Lemma scanstring_u (d1 d2 d3 d4 u : N) rest :
  hex4 d1 d2 d3 d4 = Some u → is_high_surrogate u = false →
  scanstring (backslash :: 117%N :: d1 :: d2 :: d3 :: d4 :: rest) =
  scanstring rest ≫= λ p, Ok (u :: p.1, p.2).
Proof.
  intros Hh Hs.
  change (scanstring (backslash :: 117%N :: d1 :: d2 :: d3 :: d4 :: rest))
    with (match hex4 d1 d2 d3 d4 with
          | None => Raise JSONDecodeError
          | Some u =>
              match rest with
              | b :: u' :: e1 :: e2 :: e3 :: e4 :: rest3 =>
                  match scan_u (b :: u' :: e1 :: e2 :: e3 :: e4 :: []) with
                  | Some (u2, _) =>
                      if is_high_surrogate u && is_low_surrogate u2 then
                        p ← scanstring rest3;
                        Ok ((65536 + ((u - 55296) * 1024 + (u2 - 56320)))%N :: p.1, p.2)
                      else
                        p ← scanstring rest; Ok (u :: p.1, p.2)
                  | None => p ← scanstring rest; Ok (u :: p.1, p.2)
                  end
              | _ => p ← scanstring rest; Ok (u :: p.1, p.2)
              end
          end).
  rewrite Hh, Hs.
  destruct rest as [|b [|u' [|e1 [|e2 [|e3 [|e4 rest3]]]]]]; try done.
  by destruct (scan_u _) as [[u2 ?]|].
Qed.

(** [scanstring] reads an escaped character back. *)
Lemma scanstring_escape_char c rest :
  scanstring (escape_char c ++ rest) = scanstring rest ≫= λ p, Ok (c :: p.1, p.2).
Proof.
  unfold escape_char.
  destruct (N.eqb_spec c quote) as [->|Hq]; [by apply scanstring_escape|].
  destruct (N.eqb_spec c backslash) as [->|Hb]; [by apply scanstring_escape|].
  destruct (N.eqb_spec c 8) as [->|?]; [by apply scanstring_escape|].
  destruct (N.eqb_spec c 12) as [->|?]; [by apply scanstring_escape|].
  destruct (N.eqb_spec c 10) as [->|?]; [by apply scanstring_escape|].
  destruct (N.eqb_spec c 13) as [->|?]; [by apply scanstring_escape|].
  destruct (N.eqb_spec c 9) as [->|?]; [by apply scanstring_escape|].
  destruct (N.ltb_spec c 32) as [Hc|Hc].
  - apply (scanstring_u 48 48 _ _ c); [by apply hex4_control|].
    unfold is_high_surrogate.
    destruct (N.leb_spec 55296 c); [lia|done].
  - by apply scanstring_literal.
Qed.

Lemma scanstring_escaped s rest :
  scanstring (flat_map escape_char s ++ quote :: rest) = Ok (s, rest).
Proof.
  induction s as [|c s IH]; [done|].
  simpl flat_map. rewrite <- app_assoc.
  by rewrite scanstring_escape_char, IH.
Qed.

(** [v] is read back from its text by [scan_once], whatever follows the
    text, as soon as the fuel is at least [n]. *)
Definition readable (n : nat) v : Prop :=
  ∀ (fuel : nat) rest, (n ≤ fuel)%nat → scan_once fuel (dumps v ++ rest) = Ok (v, rest).

Lemma readable_mono (n m : nat) v : (n ≤ m)%nat → readable n v → readable m v.
Proof. intros Hnm Hv fuel rest Hfuel. apply Hv. lia. Qed.

(** The text of a value starts with a character that is neither white
    space nor a closing bracket. *)
Lemma dumps_head v :
  ∃ c s, dumps v = c :: s ∧ is_ws c = false ∧ c ≠ 93%N.
Proof.
  destruct v as [|[]|s|items|pairs]; simpl; eexists _, _; by split.
Qed.

Lemma skip_ws_dumps v rest : skip_ws (dumps v ++ rest) = dumps v ++ rest.
Proof.
  destruct (dumps_head v) as (c & s & -> & Hc & _). simpl. by rewrite Hc.
Qed.

Lemma readable_string s : readable 1 (JString s).
Proof.
  intros [|fuel] rest Hfuel; [lia|].
  change (dumps (JString s) ++ rest)
    with (quote :: (flat_map escape_char s ++ [quote]) ++ rest).
  rewrite <- app_assoc.
  change (scan_once (S fuel) (quote :: flat_map escape_char s ++ [quote] ++ rest))
    with (scanstring (flat_map escape_char s ++ quote :: rest)
            ≫= λ p, Ok (JString p.1, p.2)).
  by rewrite scanstring_escaped.
Qed.

Lemma array_items_last (fuel : nat) s v rest :
  scan_once fuel s = Ok (v, 93%N :: rest) →
  array_items (S fuel) s = Ok ([v], rest).
Proof. intros H. simpl. by rewrite H. Qed.

Lemma array_items_more (fuel : nat) s v t items rest :
  scan_once fuel s = Ok (v, 44%N :: 32%N :: t) →
  array_items fuel (skip_ws t) = Ok (items, rest) →
  array_items (S fuel) s = Ok (v :: items, rest).
Proof. intros H1 H2. simpl. rewrite H1. simpl. by rewrite H2. Qed.

Lemma join_cons_cons (sep x y : pystr) (l : list pystr) :
  join sep (x :: y :: l) = x ++ sep ++ join sep (y :: l).
Proof. done. Qed.

Lemma skip_ws_join_dumps v items rest :
  skip_ws (join (lit ", ") (List.map dumps (v :: items)) ++ rest) =
  join (lit ", ") (List.map dumps (v :: items)) ++ rest.
Proof.
  destruct (dumps_head v) as (c & s & Hd & Hc & _).
  destruct items as [|v' items].
  - simpl. rewrite Hd. simpl. by rewrite Hc.
  - simpl List.map. rewrite join_cons_cons, Hd. simpl. by rewrite Hc.
Qed.

Lemma array_items_dumps items v (n fuel : nat) rest :
  Forall (readable n) (v :: items) →
  (n + length (v :: items) ≤ fuel)%nat →
  array_items fuel (join (lit ", ") (List.map dumps (v :: items)) ++ 93%N :: rest) =
  Ok (v :: items, rest).
Proof.
  revert v fuel. induction items as [|v' items IH]; intros v fuel Hall Hfuel.
  - destruct fuel as [|fuel]; [simpl in Hfuel; lia|].
    apply Forall_cons in Hall as [Hv _].
    apply array_items_last. apply Hv. simpl in Hfuel. lia.
  - destruct fuel as [|fuel]; [simpl in Hfuel; lia|].
    apply Forall_cons in Hall as [Hv Hall].
    simpl List.map. rewrite join_cons_cons, <- !app_assoc.
    eapply array_items_more.
    + apply Hv. simpl in Hfuel. lia.
    + change (dumps v' :: List.map dumps items) with (List.map dumps (v' :: items)).
      rewrite skip_ws_join_dumps. apply IH; [done|simpl in *; lia].
Qed.

Lemma scan_once_array (fuel : nat) s c t items rest :
  skip_ws s = c :: t → c ≠ 93%N →
  array_items fuel (c :: t) = Ok (items, rest) →
  scan_once (S fuel) (91%N :: s) = Ok (JArray items, rest).
Proof.
  intros H1 H2 H3. simpl. rewrite H1, (proj2 (N.eqb_neq c 93) H2), H3. done.
Qed.

Lemma join_dumps_head v items :
  ∃ c t, join (lit ", ") (List.map dumps (v :: items)) = c :: t ∧
         is_ws c = false ∧ c ≠ 93%N.
Proof.
  destruct (dumps_head v) as (c & s & Hd & Hc & Hc93).
  destruct items as [|v' items].
  - simpl. rewrite Hd. by eexists _, _.
  - simpl List.map. rewrite join_cons_cons, Hd. by eexists _, _.
Qed.

Lemma readable_array items (n : nat) :
  Forall (readable n) items → readable (n + length items + 1) (JArray items).
Proof.
  intros Hall [|fuel] rest Hfuel; [lia|].
  destruct items as [|v items]; [done|].
  change (dumps (JArray (v :: items)) ++ rest)
    with (91%N :: (join (lit ", ") (List.map dumps (v :: items)) ++ [93%N]) ++ rest).
  rewrite <- app_assoc.
  destruct (join_dumps_head v items) as (c & t & Hj & Hc & Hc93).
  eapply (scan_once_array _ _ c (t ++ [93%N] ++ rest)).
  - rewrite skip_ws_join_dumps. by rewrite Hj.
  - done.
  - change (c :: t ++ [93%N] ++ rest) with ((c :: t) ++ 93%N :: rest).
    rewrite <- Hj. apply array_items_dumps with (n := n); [done|simpl in *; lia].
Qed.

(** The text of one member of an object. *)
Definition member (kv : pystr * value) : pystr :=
  encode_basestring kv.1 ++ lit ": " ++ dumps kv.2.

Lemma member_app kv rest :
  member kv ++ rest =
  quote :: (flat_map escape_char kv.1 ++ quote :: 58%N :: 32%N :: dumps kv.2 ++ rest).
Proof.
  unfold member, encode_basestring. simpl. by rewrite <- !app_assoc.
Qed.

Lemma object_items_last (fuel : nat) s k t v rest :
  scanstring s = Ok (k, 58%N :: t) →
  scan_once fuel (skip_ws t) = Ok (v, 125%N :: rest) →
  object_items (S fuel) (quote :: s) = Ok ([(k, v)], rest).
Proof. intros H1 H2. simpl. rewrite H1. simpl. by rewrite H2. Qed.

Lemma object_items_more (fuel : nat) s k t v t' pairs rest :
  scanstring s = Ok (k, 58%N :: t) →
  scan_once fuel (skip_ws t) = Ok (v, 44%N :: 32%N :: t') →
  object_items fuel (skip_ws t') = Ok (pairs, rest) →
  object_items (S fuel) (quote :: s) = Ok ((k, v) :: pairs, rest).
Proof.
  intros H1 H2 H3. simpl. rewrite H1. simpl. rewrite H2. simpl. by rewrite H3.
Qed.

Lemma skip_ws_space_dumps v rest :
  skip_ws (32%N :: dumps v ++ rest) = dumps v ++ rest.
Proof. apply skip_ws_dumps. Qed.

Lemma object_items_dumps pairs kv (n fuel : nat) rest :
  Forall (λ kv, readable n kv.2) (kv :: pairs) →
  (n + length (kv :: pairs) ≤ fuel)%nat →
  object_items fuel (join (lit ", ") (List.map member (kv :: pairs)) ++ 125%N :: rest) =
  Ok (kv :: pairs, rest).
Proof.
  revert kv fuel. induction pairs as [|kv' pairs IH]; intros [k v] fuel Hall Hfuel.
  - destruct fuel as [|fuel]; [simpl in Hfuel; lia|].
    apply Forall_cons in Hall as [Hv _].
    change (join (lit ", ") (List.map member [(k, v)])) with (member (k, v)).
    rewrite member_app.
    eapply object_items_last.
    + apply scanstring_escaped.
    + rewrite skip_ws_space_dumps. apply Hv. simpl in Hfuel. lia.
  - destruct fuel as [|fuel]; [simpl in Hfuel; lia|].
    apply Forall_cons in Hall as [Hv Hall].
    simpl List.map. rewrite join_cons_cons, <- !app_assoc, member_app.
    eapply object_items_more.
    + apply scanstring_escaped.
    + rewrite skip_ws_space_dumps. apply Hv. simpl in Hfuel. lia.
    + change (member kv' :: List.map member pairs)
        with (List.map member (kv' :: pairs)).
      assert (Hskip : ∀ t, skip_ws (join (lit ", ") (List.map member (kv' :: pairs)) ++ t)
                           = join (lit ", ") (List.map member (kv' :: pairs)) ++ t).
      { intros t. destruct pairs; simpl List.map; [|rewrite join_cons_cons]; done. }
      rewrite Hskip. apply IH; [done|simpl in *; lia].
Qed.

Lemma dict_set_fresh k v (d : list (pystr * value)) :
  k ∉ d.*1 → dict_set k v d = d ++ [(k, v)].
Proof.
  induction d as [|[k' v'] d IH]; intros Hk; [done|].
  simpl in *. apply not_elem_of_cons in Hk as [Hne Hk].
  rewrite decide_False by done. by rewrite IH.
Qed.

Lemma dict_of_pairs_NoDup (pairs : list (pystr * value)) :
  NoDup pairs.*1 → dict_of_pairs pairs = pairs.
Proof.
  unfold dict_of_pairs.
  assert (H : ∀ acc, NoDup (acc ++ pairs).*1 →
              fold_left (λ d kv, dict_set kv.1 kv.2 d) pairs acc = acc ++ pairs).
  { induction pairs as [|[k v] pairs IH]; intros acc Hnd; simpl.
    - by rewrite app_nil_r.
    - rewrite dict_set_fresh.
      + rewrite IH; rewrite <- app_assoc; done.
      + rewrite fmap_app in Hnd. apply NoDup_app in Hnd as (_ & Hdisj & _).
        intros Hin. apply (Hdisj _ Hin). simpl. left. }
  intros Hnd. by apply (H []).
Qed.

Lemma scan_once_object (fuel : nat) s c t pairs rest :
  skip_ws s = c :: t → c ≠ 125%N →
  object_items fuel (c :: t) = Ok (pairs, rest) →
  scan_once (S fuel) (123%N :: s) = Ok (JObject (dict_of_pairs pairs), rest).
Proof.
  intros H1 H2 H3. simpl. rewrite H1, (proj2 (N.eqb_neq c 125) H2), H3. done.
Qed.

Lemma readable_object pairs (n : nat) :
  NoDup pairs.*1 →
  Forall (λ kv, readable n kv.2) pairs →
  readable (n + length pairs + 1) (JObject pairs).
Proof.
  intros Hnd Hall [|fuel] rest Hfuel; [lia|].
  destruct pairs as [|kv pairs]; [done|].
  change (dumps (JObject (kv :: pairs)) ++ rest)
    with (123%N :: (join (lit ", ") (List.map member (kv :: pairs)) ++ [125%N]) ++ rest).
  rewrite <- app_assoc.
  assert (Hj : ∃ t, join (lit ", ") (List.map member (kv :: pairs)) = quote :: t).
  { destruct pairs; simpl List.map; [|rewrite join_cons_cons]; by eexists. }
  destruct Hj as (t & Hj).
  rewrite <- (dict_of_pairs_NoDup (kv :: pairs)) at 2 by done.
  eapply (scan_once_object _ _ quote (t ++ [125%N] ++ rest)).
  - by rewrite Hj.
  - done.
  - change (quote :: t ++ [125%N] ++ rest) with ((quote :: t) ++ 125%N :: rest).
    rewrite <- Hj. apply object_items_dumps with (n := n); [done|simpl in *; lia].
Qed.

(** [json.loads] reads back what [json.dumps] wrote, given the fuel for
    it. *)
Lemma loads_dumps v (n : nat) :
  readable n v → (n ≤ 2 * length (dumps v) + 2)%nat → loads (dumps v) = Ok v.
Proof.
  intros Hv Hn. unfold loads.
  pose proof (skip_ws_dumps v []) as Hskip. rewrite app_nil_r in Hskip.
  rewrite Hskip. rewrite <- (app_nil_r (dumps v)) at 2.
  by rewrite Hv.
Qed.

Lemma length_join_elem (sep x : pystr) (parts : list pystr) :
  x ∈ parts → (length x ≤ length (join sep parts))%nat.
Proof.
  induction parts as [|y parts IH]; intros Hin; [by apply not_elem_of_nil in Hin|].
  destruct parts as [|z parts].
  - apply list_elem_of_singleton in Hin as ->. done.
  - rewrite join_cons_cons, !length_app.
    apply elem_of_cons in Hin as [->|Hin]; [lia|].
    specialize (IH Hin). lia.
Qed.

Lemma length_join_dumps (items : list value) :
  (length items ≤ length (join (lit ", ") (List.map dumps items)))%nat.
Proof.
  induction items as [|v items IH]; [done|].
  destruct (dumps_head v) as (c & s & Hd & _).
  destruct items as [|v' items].
  - simpl. rewrite Hd. simpl. lia.
  - simpl List.map in *. rewrite join_cons_cons, !length_app, Hd. simpl in *. lia.
Qed.

(** The summary record that [run] writes is read back as it is. *)
Lemma loads_dumps_summary self (details : list pystr) (concise : pystr) :
  loads (dumps (summary_dict self details concise)) =
  Ok (summary_dict self details concise).
Proof.
  apply (loads_dumps _ (length details + 2 + 4 + 1)).
  - unfold summary_dict. intros fuel rest Hfuel.
    apply (readable_object _ (length details + 2)); [| |simpl; lia].
    + by apply (bool_decide_unpack _).
    + assert (Hs : ∀ s, readable (length details + 2) (JString s)).
      { intros s. eapply readable_mono; [|apply readable_string]. lia. }
      repeat (apply Forall_cons; split); try apply Hs; [|done].
      simpl. eapply readable_mono; [|apply (readable_array _ 1)].
      * rewrite length_map. lia.
      * apply Forall_forall. intros v Hv.
        apply list_elem_of_In, in_map_iff in Hv as (s & <- & _).
        apply readable_string.
  - unfold summary_dict.
    set (pairs := [(lit "url", JString (url self)); _; _; _]).
    change (dumps (JObject pairs))
      with (123%N :: join (lit ", ") (List.map member pairs) ++ [125%N]).
    assert (H1 : (5 ≤ length (join (lit ", ") (List.map member pairs)))%nat).
    { etrans; [|apply (length_join_elem _ (member (lit "url", JString (url self))))].
      - unfold member. rewrite length_app. simpl. lia.
      - simpl. left. }
    assert (H2 : (length details ≤ length (join (lit ", ") (List.map member pairs)))%nat).
    { etrans; [|apply (length_join_elem _
                         (member (lit "detail", JArray (List.map JString details))))].
      - unfold member. rewrite !length_app.
        change (dumps (lit "detail", JArray (List.map JString details)).2)
          with (lit "[" ++ join (lit ", ") (List.map dumps (List.map JString details))
                ++ lit "]").
        rewrite !length_app.
        pose proof (length_join_dumps (List.map JString details)) as Hl.
        rewrite length_map in Hl. lia.
      - simpl. right. right. left. }
    revert H1 H2. generalize (join (lit ", ") (List.map member pairs)).
    intros j H1 H2. simpl length. rewrite length_app. lia.
Qed.

End json_roundtrip.

(** ** The summary store *)

Section store.
Context {L B : Type}.
Implicit Types (self : YoutubeSummarize) (vid dir : pystr).

Lemma store_path_eq {X} vid dir (σ : state X) :
  env σ !! SUMMARY_STORE_DIR = Some dir →
  store_path vid σ = (Ok (dir ++ lit "/" ++ vid), σ).
Proof.
  intros Henv. unfold store_path. rewrite io_bind_eq.
  unfold environ. by rewrite Henv.
Qed.

Lemma store_path_unset {X} vid (σ : state X) :
  env σ !! SUMMARY_STORE_DIR = None →
  store_path vid σ = (Raise (KeyError SUMMARY_STORE_DIR), σ).
Proof.
  intros Henv. unfold store_path. rewrite io_bind_eq.
  unfold environ. by rewrite Henv.
Qed.

(** The summarizer that [__init__] builds for [vid] stores its summary
    under the path the QA session looks at for [vid]. *)
Lemma init_summary_file (setup : L → result () * L) vid debug
    (σ σ' : state L) self :
  __init__ setup vid debug σ = (Ok self, σ') →
  ∃ dir, env σ !! SUMMARY_STORE_DIR = Some dir ∧
         summary_file self = dir ++ lit "/" ++ vid ∧
         Summarize.vid self = vid ∧
         env σ' = env σ ∧ files σ' = files σ ∧ dirs σ' = dirs σ.
Proof.
  unfold __init__. destruct (is_empty vid); [done|].
  rewrite io_bind_eq.
  destruct (env σ !! SUMMARY_STORE_DIR) as [dir|] eqn:Henv.
  - rewrite (store_path_eq _ dir) by done.
    rewrite io_bind_eq. unfold external.
    destruct (setup (ext σ)) as [[[]|e] x]; [|done].
    intros [= <- <-]. by exists dir.
  - by rewrite store_path_unset.
Qed.

(** What the stored summary looks like. *)
Lemma dumps_summary self (details : list pystr) (concise : pystr) :
  dumps (summary_dict self details concise) =
  lit "{" ++
    ((encode_basestring (lit "url") ++ lit ": " ++ encode_basestring (url self)) ++
     lit ", " ++
     (encode_basestring (lit "title") ++ lit ": " ++ encode_basestring (title self)) ++
     lit ", " ++
     (encode_basestring (lit "detail") ++ lit ": " ++
      (lit "[" ++ join (lit ", ") (List.map encode_basestring details) ++ lit "]")) ++
     lit ", " ++
     (encode_basestring (lit "concise") ++ lit ": " ++ encode_basestring concise)) ++
  lit "}".
Proof.
  unfold summary_dict.
  change (dumps (JObject ?pairs))
    with (lit "{" ++ join (lit ", ") (List.map member pairs) ++ lit "}").
  simpl List.map. rewrite !join_cons_cons. unfold member.
  change (dumps (?k, JArray ?l).2)
    with (lit "[" ++ join (lit ", ") (List.map dumps l) ++ lit "]").
  by rewrite List.map_map.
Qed.

(** A string of non-ASCII characters is written between its quotes as it
    is. *)
Lemma encode_basestring_non_ascii (s : pystr) :
  Forall (λ c, (128 ≤ c)%N) s → encode_basestring s = quote :: s ++ [quote].
Proof.
  intros Hs. unfold encode_basestring. do 2 f_equal.
  induction Hs as [|c s Hc _ IH]; [done|].
  simpl. rewrite IH. unfold escape_char.
  destruct (N.eqb_spec c quote) as [->|?]; [done|].
  destruct (N.eqb_spec c backslash) as [->|?]; [done|].
  destruct (N.eqb_spec c 8) as [->|?]; [done|].
  destruct (N.eqb_spec c 12) as [->|?]; [done|].
  destruct (N.eqb_spec c 10) as [->|?]; [done|].
  destruct (N.eqb_spec c 13) as [->|?]; [done|].
  destruct (N.eqb_spec c 9) as [->|?]; [done|].
  destruct (N.ltb_spec c 32); [lia|done].
Qed.

Lemma last_member_text (A M1 M2 M3 S K C Z s : pystr) :
  A ++ (M1 ++ S ++ M2 ++ S ++ M3 ++ S ++ (K ++ C ++ (quote :: s ++ [quote]))) ++ Z =
  (A ++ M1 ++ S ++ M2 ++ S ++ M3 ++ S ++ K) ++ C ++ quote :: s ++ quote :: Z.
Proof. rewrite <- !app_assoc. simpl. by rewrite <- !app_assoc. Qed.

(** C6: a summary record (any url, title, detail strings and concise string)
    that [run] has saved for a video id is what the QA session of that
    video id loads: the file holds the JSON text of the record and nothing
    of what it held before, non-ASCII characters stand in that text as they
    are, and [json.load] gives the record back. *)
Theorem saved_summary_is_loaded_back self vid dir (details : list pystr)
    (concise : pystr) (σ σ' : state L) (σq : state B) :
  summary_file self = dir ++ lit "/" ++ vid →
  save self (summary_dict self details concise) σ = (Ok (), σ') →
  env σq !! SUMMARY_STORE_DIR = Some dir →
  files σq = files σ' →
  dirs σq = dirs σ' →
  Main.read_summary vid σq = (Ok (Some (summary_dict self details concise)), σq) ∧
  Json.getitem (summary_dict self details concise) (lit "concise") = Ok (JString concise) ∧
  files σ' !! (dir ++ lit "/" ++ vid) = Some (dumps (summary_dict self details concise)) ∧
  (Forall (λ c, (128 ≤ c)%N) concise →
   ∃ before,
     dumps (summary_dict self details concise) =
     before ++ lit ": " ++ quote :: concise ++ quote :: lit "}").
Proof.
  intros Hpath Hsave Henv Hfiles Hdirs.
  apply save_Ok in Hsave as (Hf & Hd & Hnd).
  assert (Hcontent : files σ' !! (dir ++ lit "/" ++ vid) =
                     Some (dumps (summary_dict self details concise))).
  { rewrite Hf, <- Hpath. apply lookup_insert_eq. }
  split; [|split; [done|split; [done|]]].
  - unfold Main.read_summary.
    rewrite io_bind_eq, (store_path_eq _ dir) by done.
    rewrite io_bind_eq. unfold path_exists.
    rewrite bool_decide_eq_true_2.
    2:{ left. rewrite Hfiles. eexists. exact Hcontent. }
    rewrite io_bind_eq, (store_path_eq _ dir) by done.
    rewrite io_bind_eq. unfold read_file. rewrite Hfiles.
    replace (files σ' !! (dir ++ lit "/" ++ vid))
      with (Some (dumps (summary_dict self details concise))) by (symmetry; exact Hcontent).
    rewrite io_bind_eq. unfold lift. by rewrite loads_dumps_summary.
  - intros Hc. rewrite dumps_summary, (encode_basestring_non_ascii concise Hc).
    eexists. apply last_member_text.
Qed.

End store.

(** A record with Japanese text, saved over the older summary of the
    sample world, and the world of a later QA session on the same video. *)
Definition sample_details : list pystr := [lit "first part"; lit "second part"].

Definition sample_concise : pystr := [12371; 12435; 12395; 12385; 12399]%N.

Definition stored_world : state nat :=
  (save sample_self (summary_dict sample_self sample_details sample_concise)
     sample_world).2.

Definition qa_world (lines : list pystr) : state () :=
  State (env sample_world) (files stored_world) (dirs stored_world)
    lines [] [] ().

Lemma saved_summary_is_loaded_back_witness :
  Main.read_summary (lit "abc") (qa_world []) =
    (Ok (Some (summary_dict sample_self sample_details sample_concise)), qa_world []) ∧
  files stored_world !! lit "store/abc" =
    Some (dumps (summary_dict sample_self sample_details sample_concise)).
Proof.
  destruct (saved_summary_is_loaded_back sample_self (lit "abc") (lit "store")
              sample_details sample_concise sample_world stored_world (qa_world []))
    as (Hread & _ & Hfile & _).
  - reflexivity.
  - unfold stored_world.
    destruct (save _ _ _) as [r σ'] eqn:E.
    assert (Hr : is_ok r = true).
    { change r with (r, σ').1. rewrite <- E. by vm_compute. }
    by destruct r as [[]|].
  - by vm_compute.
  - reflexivity.
  - reflexivity.
  - split; [exact Hread|exact Hfile].
Defined.

(** ** The QA session: the summary shown on entry *)

Section qa_summary.
Context {B : Type}.
Variable YoutubeQA : pystr → Z → bool → bool → io B ().
Variable prepare_query : io B ().
Variable run_query : pystr → B → result pystr * B.
Variable get_source : B → list source_row.


End qa_summary.

(** A QA session in a world with a configured, empty store. *)
Definition empty_store_world (lines : list pystr) : state () :=
  State {[SUMMARY_STORE_DIR := lit "store"]} ∅ ∅ lines [] [] ().


(** ** [str.strip] *)

Section strip_facts.
Implicit Types (s q : pystr) (c : N).

Lemma lstrip_all_space s : forallb isspace s = true → lstrip s = [].
Proof.
  induction s as [|c s IH]; [done|]. simpl.
  intros [Hc Hs]%andb_prop. rewrite Hc. by apply IH.
Qed.

(** What [lstrip] leaves does not start with white space, and is what
    follows the white space at the start. *)
Lemma lstrip_spec s :
  ∃ ws, s = ws ++ lstrip s ∧ forallb isspace ws = true ∧
        (isspace <$> head (lstrip s)) ≠ Some true.
Proof.
  induction s as [|c s (ws & Hs & Hws & Hhead)].
  - by exists [].
  - simpl. destruct (isspace c) eqn:Hc.
    + exists (c :: ws). simpl. rewrite Hc, Hws. by rewrite <- Hs.
    + exists []. simpl. rewrite Hc. by split.
Qed.

Lemma lstrip_no_space s :
  (isspace <$> head s) ≠ Some true → lstrip s = s.
Proof.
  destruct s as [|c s]; [done|]. simpl.
  destruct (isspace c); [by intros []|done].
Qed.

(** A string without white space at either end. *)
Definition stripped q : Prop :=
  (isspace <$> head q) ≠ Some true ∧ (isspace <$> last q) ≠ Some true.

Lemma head_rev {A} (l : list A) : head (rev l) = last l.
Proof.
  induction l as [|x l IH] using rev_ind; [done|].
  by rewrite rev_unit, last_snoc.
Qed.

Lemma last_rev {A} (l : list A) : last (rev l) = head l.
Proof. by rewrite <- head_rev, rev_involutive. Qed.

Lemma head_app_nonempty {A} (l k : list A) : l ≠ [] → head (l ++ k) = head l.
Proof. by destruct l. Qed.

Lemma strip_stripped s : stripped (strip s).
Proof.
  unfold stripped, strip, rstrip.
  destruct (lstrip_spec s) as (ws1 & _ & _ & Hh1).
  destruct (lstrip_spec (rev (lstrip s))) as (ws2 & Hs2 & _ & Hh2).
  set (t := lstrip s) in *. set (u := lstrip (rev t)) in *.
  split.
  - destruct u as [|c u'] eqn:Hu; [done|].
    assert (Ht : t = rev (c :: u') ++ rev ws2).
    { rewrite <- rev_app_distr, <- Hs2. by rewrite rev_involutive. }
    rewrite Ht in Hh1. rewrite head_app_nonempty in Hh1; [done|].
    simpl. by destruct (rev u').
  - by rewrite last_rev.
Qed.

Lemma strip_of_stripped q : stripped q → strip q = q.
Proof.
  intros [Hh Hl]. unfold strip, rstrip.
  rewrite (lstrip_no_space q Hh).
  rewrite lstrip_no_space by (by rewrite head_rev).
  apply rev_involutive.
Qed.

Lemma strip_idempotent s : strip (strip s) = strip s.
Proof. apply strip_of_stripped, strip_stripped. Qed.

Lemma strip_all_space s : forallb isspace s = true → strip s = [].
Proof.
  intros Hs. unfold strip, rstrip. by rewrite (lstrip_all_space s Hs).
Qed.

Lemma strip_nil_all_space s : strip s = [] → forallb isspace s = true.
Proof.
  unfold strip, rstrip. intros Hs.
  destruct (lstrip_spec s) as (ws1 & Hs1 & Hws1 & _).
  destruct (lstrip_spec (rev (lstrip s))) as (ws2 & Hs2 & Hws2 & _).
  assert (Hu : lstrip (rev (lstrip s)) = []).
  { apply (f_equal (@rev N)) in Hs. by rewrite rev_involutive in Hs. }
  rewrite Hu, app_nil_r in Hs2.
  rewrite Hs1, forallb_app, Hws1. simpl.
  rewrite <- (rev_involutive (lstrip s)), Hs2.
  rewrite forallb_forall. intros c Hc%in_rev.
  rewrite forallb_forall in Hws2. by apply Hws2.
Qed.

End strip_facts.

(** ** The QA loop *)

Section qa_loop_facts.
Context {B : Type}.
Variable run_query : pystr → B → result pystr * B.
Variable get_source : B → list source_row.
Variable detail : bool.
Implicit Types (σ : state B) (st : Main.qa_state) (q line : pystr).

Local Abbreviation qa_step := (Main.qa_step run_query get_source detail).
Local Abbreviation qa_loop := (Main.qa_loop run_query get_source detail).
Local Abbreviation AwaitingQuery := Main.AwaitingQuery.
Local Abbreviation Answering := Main.Answering.
Local Abbreviation Terminated := Main.Terminated.

(** The world after the prompt has been written and a line has been read,
    [rest] being the lines that follow. *)
Definition prompted σ (rest : list pystr) : state B :=
  State (env σ) (files σ) (dirs σ) rest
    (stdout σ ++ [OutPrompt (lit "Query: ")]) (trace σ) (ext σ).

(** What answering prints after the label: the answer, then, in detail
    mode, the sources and an empty line. *)
Definition answer_output (a : pystr) (yqa : B) : list output :=
  OutAnswer a ::
  (if detail then (OutSource <$> get_source yqa) ++ [OutBlank] else []).

(** The world after query [q] has been answered with [a]. *)
Definition answered σ q (a : pystr) (yqa : B) : state B :=
  State (env σ) (files σ) (dirs σ) (stdin σ)
    (stdout σ ++ OutAnswerLabel :: answer_output a yqa)
    (trace σ ++ [EvQuery q (Ok a)]) yqa.

(** The world after the backend has failed on query [q]. *)
Definition unanswered σ q (e : exn) (yqa : B) : state B :=
  State (env σ) (files σ) (dirs σ) (stdin σ)
    (stdout σ ++ [OutAnswerLabel])
    (trace σ ++ [EvQuery q (Raise e)]) yqa.

Lemma qa_step_awaiting σ line rest :
  stdin σ = line :: rest →
  qa_step AwaitingQuery σ =
  (Ok (if is_empty (strip line) then Terminated else Answering (strip line)),
   prompted σ rest).
Proof.
  intros Hin. unfold Main.qa_step. rewrite io_bind_eq.
  unfold input. rewrite Hin. by destruct (is_empty (strip line)).
Qed.

Lemma qa_step_eof σ :
  stdin σ = [] →
  qa_step AwaitingQuery σ = (Raise EOFError, prompted σ []).
Proof.
  intros Hin. unfold Main.qa_step. rewrite io_bind_eq.
  unfold input. by rewrite Hin.
Qed.

Lemma print_sources_eq (rows : list source_row) σ :
  Main.print_sources rows σ =
  (Ok (), State (env σ) (files σ) (dirs σ) (stdin σ)
            (stdout σ ++ (OutSource <$> rows)) (trace σ) (ext σ)).
Proof.
  revert σ. induction rows as [|row rows IH]; intros σ; simpl.
  - rewrite io_ret_eq, app_nil_r. by destruct σ.
  - rewrite io_bind_eq. unfold print at 1. rewrite IH. simpl.
    by rewrite <- app_assoc.
Qed.

Lemma qa_step_answering σ q :
  qa_step (Answering q) σ =
  match run_query q (ext σ) with
  | (Ok a, yqa) => (Ok AwaitingQuery, answered σ q a yqa)
  | (Raise e, yqa) => (Raise e, unanswered σ q e yqa)
  end.
Proof.
  unfold Main.qa_step. rewrite io_bind_eq. unfold print at 1.
  rewrite io_bind_eq. unfold Main.call_run_query, external. simpl.
  destruct (run_query q (ext σ)) as [[a|e] yqa]; [|done].
  rewrite io_bind_eq. unfold print at 1. rewrite io_bind_eq.
  unfold answered, answer_output. destruct detail.
  - rewrite io_bind_eq. unfold get_ext at 1. simpl.
    rewrite io_bind_eq, print_sources_eq. unfold print. simpl.
    rewrite io_ret_eq. do 2 f_equal.
    by rewrite <- !app_assoc.
  - rewrite !io_ret_eq. simpl. do 2 f_equal. by rewrite <- !app_assoc.
Qed.

Lemma qa_loop_succ (fuel : nat) st σ :
  st ≠ Terminated →
  qa_loop (S fuel) st σ =
  match qa_step st σ with
  | (Ok st', σ') => qa_loop fuel st' σ'
  | (Raise e, σ') => (Raise e, σ')
  end.
Proof. by destruct st. Qed.

Lemma qa_loop_terminated (fuel : nat) σ :
  qa_loop fuel Terminated σ = (Ok Terminated, σ).
Proof. by destruct fuel. Qed.

Lemma is_empty_true (s : pystr) : is_empty s = true ↔ s = [].
Proof. by destruct s. Qed.

(** The answers among what has been printed. *)
Definition answers_of (out : list output) : list pystr :=
  omap (λ o, match o with OutAnswer a => Some a | _ => None end) out.

Lemma answers_of_answer_output a yqa : answers_of (answer_output a yqa) = [a].
Proof.
  unfold answers_of, answer_output. simpl. f_equal.
  destruct detail; [|done].
  rewrite omap_app. simpl. rewrite app_nil_r.
  induction (get_source yqa) as [|row rows IH]; [done|]. by simpl.
Qed.

Lemma answers_of_app (out1 out2 : list output) :
  answers_of (out1 ++ out2) = answers_of out1 ++ answers_of out2.
Proof. apply omap_app. Qed.

(** A session that ends by the [break]: the lines [queries], which are
    not blank, have been answered by [answers], one answer each, and the
    line after them was blank. *)
Definition session σ (queries answers : list pystr) σ' : Prop :=
  ∃ blank rest out,
    stdin σ = queries ++ blank :: rest ∧
    strip blank = [] ∧
    Forall (λ line, strip line ≠ []) queries ∧
    length answers = length queries ∧
    stdin σ' = rest ∧
    trace σ' = trace σ ++ zip_with (λ line a, EvQuery (strip line) (Ok a)) queries answers ∧
    stdout σ' = stdout σ ++ out ∧
    answers_of out = answers.

Lemma qa_loop_sessions (fuel : nat) :
  (∀ σ σ', qa_loop fuel AwaitingQuery σ = (Ok Terminated, σ') →
           ∃ queries answers, session σ queries answers σ') ∧
  (∀ q σ σ', qa_loop fuel (Answering q) σ = (Ok Terminated, σ') →
             ∃ a yqa queries answers,
               run_query q (ext σ) = (Ok a, yqa) ∧
               session (answered σ q a yqa) queries answers σ').
Proof.
  induction fuel as [|fuel [IHa IHq]]; [by split|].
  split.
  - intros σ σ'. rewrite qa_loop_succ by done.
    destruct (stdin σ) as [|line rest] eqn:Hin.
    { by rewrite qa_step_eof. }
    rewrite (qa_step_awaiting _ _ _ Hin).
    destruct (is_empty (strip line)) eqn:He.
    + rewrite qa_loop_terminated. intros [= <-].
      apply is_empty_true in He.
      exists [], [], line, rest, [OutPrompt (lit "Query: ")].
      simpl. rewrite app_nil_r. by repeat split.
    + intros Hloop.
      apply IHq in Hloop as (a & yqa & queries & answers & Hrun & Hs).
      destruct Hs as (blank & rest' & out & Hin' & Hb & Hq & Hlen & Hrest & Htr & Hout & Hans).
      simpl in *.
      exists (line :: queries), (a :: answers), blank, rest',
        (OutPrompt (lit "Query: ") :: OutAnswerLabel :: answer_output a yqa ++ out).
      split; [by rewrite Hin, Hin'|]. split; [done|]. split.
      { constructor; [|done]. intros E. by rewrite E in He. }
      split; [simpl; by rewrite Hlen|]. split; [done|]. split.
      { rewrite Htr. by rewrite <- app_assoc. }
      split.
      { rewrite Hout. by rewrite <- !app_assoc. }
      change (OutPrompt (lit "Query: ") :: OutAnswerLabel :: answer_output a yqa ++ out)
        with ([OutPrompt (lit "Query: "); OutAnswerLabel] ++ answer_output a yqa ++ out).
      by rewrite !answers_of_app, answers_of_answer_output, Hans.
  - intros q σ σ'. rewrite qa_loop_succ by done.
    rewrite qa_step_answering.
    destruct (run_query q (ext σ)) as [[a|e] yqa]; [|done].
    intros Hloop. apply IHa in Hloop as (queries & answers & Hs).
    by exists a, yqa, queries, answers.
Qed.

(** With fuel for every line of the input the loop comes to an end: it
    terminates or raises. *)
Lemma qa_loop_ends (fuel : nat) :
  (∀ σ, (2 * length (stdin σ) + 1 ≤ fuel)%nat →
        ∀ st, (qa_loop fuel AwaitingQuery σ).1 = Ok st → st = Terminated) ∧
  (∀ q σ, (2 * length (stdin σ) + 2 ≤ fuel)%nat →
          ∀ st, (qa_loop fuel (Answering q) σ).1 = Ok st → st = Terminated).
Proof.
  induction fuel as [|fuel [IHa IHq]]; [split; intros; lia|].
  split.
  - intros σ Hfuel st. rewrite qa_loop_succ by done.
    destruct (stdin σ) as [|line rest] eqn:Hin.
    { by rewrite qa_step_eof. }
    rewrite (qa_step_awaiting _ _ _ Hin).
    destruct (is_empty (strip line)).
    + rewrite qa_loop_terminated. by intros [= <-].
    + apply IHq. simpl in *. lia.
  - intros q σ Hfuel st. rewrite qa_loop_succ by done.
    rewrite qa_step_answering.
    destruct (run_query q (ext σ)) as [[a|e] yqa]; [|done].
    apply IHa. simpl. lia.
Qed.

(** C8: the loop is the state machine of the spec.  From [AwaitingQuery]
    a line that is empty once stripped leads to [Terminated], and the loop
    exits there; any other line leads to [Answering] with the stripped
    line.  From [Answering] the backend is asked once, its answer is
    printed once, and the state is [AwaitingQuery] again; [Answering] never
    leads to [Terminated] (when the backend raises, the exception ends the
    session).  So a session that reaches [Terminated] has read queries,
    answered each of them once, in order, and then read an empty line. *)
Theorem qa_loop_follows_state_machine :
  (∀ σ line rest (fuel : nat),
     stdin σ = line :: rest → strip line = [] →
     qa_step AwaitingQuery σ = (Ok Terminated, prompted σ rest) ∧
     qa_loop (S fuel) AwaitingQuery σ = (Ok Terminated, prompted σ rest)) ∧
  (∀ σ line rest,
     stdin σ = line :: rest → strip line ≠ [] →
     qa_step AwaitingQuery σ = (Ok (Answering (strip line)), prompted σ rest)) ∧
  (∀ σ q a yqa,
     run_query q (ext σ) = (Ok a, yqa) →
     qa_step (Answering q) σ = (Ok AwaitingQuery, answered σ q a yqa) ∧
     answers_of (drop (length (stdout σ)) (stdout (answered σ q a yqa))) = [a] ∧
     drop (length (trace σ)) (trace (answered σ q a yqa)) = [EvQuery q (Ok a)]) ∧
  (∀ σ q st σ', qa_step (Answering q) σ = (Ok st, σ') → st = AwaitingQuery) ∧
  (∀ σ σ',
     qa_step AwaitingQuery σ = (Ok Terminated, σ') →
     ∃ line rest, stdin σ = line :: rest ∧ strip line = []) ∧
  (∀ (fuel : nat) σ σ',
     qa_loop fuel AwaitingQuery σ = (Ok Terminated, σ') →
     ∃ queries answers, session σ queries answers σ') ∧
  (∀ (fuel : nat) σ st,
     (2 * length (stdin σ) + 1 ≤ fuel)%nat →
     (qa_loop fuel AwaitingQuery σ).1 = Ok st → st = Terminated).
Proof.
  split; [|split; [|split; [|split; [|split; [|split]]]]].
  - intros σ line rest fuel Hin Hs.
    rewrite qa_loop_succ, (qa_step_awaiting _ _ _ Hin), Hs by done.
    by rewrite qa_loop_terminated.
  - intros σ line rest Hin Hs. rewrite (qa_step_awaiting _ _ _ Hin).
    destruct (is_empty (strip line)) eqn:He; [|done].
    by apply is_empty_true in He.
  - intros σ q a yqa Hrun. rewrite qa_step_answering, Hrun.
    split; [done|]. simpl. rewrite !drop_app_length. split; [|done].
    unfold answers_of at 1. simpl. apply answers_of_answer_output.
  - intros σ q st σ'. rewrite qa_step_answering.
    destruct (run_query q (ext σ)) as [[a|e] yqa]; [|done].
    by intros [= <- _].
  - intros σ σ'. destruct (stdin σ) as [|line rest] eqn:Hin.
    { by rewrite qa_step_eof. }
    rewrite (qa_step_awaiting _ _ _ Hin).
    destruct (is_empty (strip line)) eqn:He; [|done].
    intros _. exists line, rest. split; [done|]. by apply is_empty_true.
  - intros fuel. apply qa_loop_sessions.
  - intros fuel σ st Hfuel. by apply qa_loop_ends.
Qed.

(** Every query the loop hands to the backend has been stripped. *)
Lemma qa_loop_queries_stripped (fuel : nat) st σ r σ' :
  qa_loop fuel st σ = (r, σ') →
  match st with
  | Main.Answering q0 => stripped q0 ∧ q0 ≠ [] ∧ ∃ line, q0 = strip line
  | _ => True
  end →
  ∃ evs, trace σ' = trace σ ++ evs ∧
         Forall (λ ev, ∃ q res line, ev = EvQuery q res ∧ q = strip line ∧
                                     stripped q ∧ q ≠ []) evs.
Proof.
  revert st σ. induction fuel as [|fuel IH]; intros st σ.
  - destruct st; simpl; rewrite io_ret_eq; intros [= <- <-] _;
      exists []; by rewrite app_nil_r.
  - destruct st as [|q0|].
    + rewrite qa_loop_succ by done.
      destruct (stdin σ) as [|line rest] eqn:Hin.
      { rewrite qa_step_eof by done. intros [= <- <-] _.
        exists []. by rewrite app_nil_r. }
      rewrite (qa_step_awaiting _ _ _ Hin). intros Hloop _.
      apply IH in Hloop; [done|].
      destruct (is_empty (strip line)) eqn:He; [done|].
      split; [apply strip_stripped|]. split; [|by exists line].
      intros E. by rewrite E in He.
    + rewrite qa_loop_succ by done. rewrite qa_step_answering.
      intros Hloop (Hs & Hne & line & Hline).
      destruct (run_query q0 (ext σ)) as [[a|e] yqa].
      * apply IH in Hloop as (evs & Htr & Hall); [|done].
        exists (EvQuery q0 (Ok a) :: evs). split.
        { rewrite Htr. simpl. by rewrite <- app_assoc. }
        constructor; [|done]. by exists q0, (Ok a), line.
      * injection Hloop as <- <-. exists [EvQuery q0 (Raise e)].
        split; [done|]. constructor; [|done]. by exists q0, (Raise e), line.
    + rewrite qa_loop_terminated. intros [= <- <-] _.
      exists []. by rewrite app_nil_r.
Qed.

(** C10: the emptiness check of line 27 is made on the stripped input.  A
    line of white space only is stripped to the empty string, so the loop
    terminates on it as on an empty line; and whatever reaches the
    backend is a stripped, non-empty line: without white space at either
    end, and unchanged by stripping it again. *)
Theorem whitespace_only_input_terminates :
  (∀ σ line rest (fuel : nat),
     stdin σ = line :: rest → forallb isspace line = true →
     strip line = [] ∧
     qa_step AwaitingQuery σ = (Ok Terminated, prompted σ rest) ∧
     qa_loop (S fuel) AwaitingQuery σ = (Ok Terminated, prompted σ rest)) ∧
  (∀ σ q σ',
     qa_step AwaitingQuery σ = (Ok (Answering q), σ') →
     ∃ line rest, stdin σ = line :: rest ∧ q = strip line ∧
                  q ≠ [] ∧ stripped q ∧ strip q = q) ∧
  (∀ (fuel : nat) σ r σ' q res,
     qa_loop fuel AwaitingQuery σ = (r, σ') →
     EvQuery q res ∈ drop (length (trace σ)) (trace σ') →
     (∃ line, q = strip line) ∧ q ≠ [] ∧ stripped q ∧ strip q = q).
Proof.
  split; [|split].
  - intros σ line rest fuel Hin Hws.
    pose proof (strip_all_space line Hws) as Hs. split; [done|].
    rewrite qa_loop_succ, (qa_step_awaiting _ _ _ Hin), Hs by done.
    by rewrite qa_loop_terminated.
  - intros σ q σ'. destruct (stdin σ) as [|line rest] eqn:Hin.
    { by rewrite qa_step_eof. }
    rewrite (qa_step_awaiting _ _ _ Hin).
    destruct (is_empty (strip line)) eqn:He; [done|].
    intros [= <- _]. exists line, rest. split; [done|]. split; [done|].
    split; [intros E; by rewrite E in He|].
    split; [apply strip_stripped|apply strip_idempotent].
  - intros fuel σ r σ' q res Hloop Hin.
    apply qa_loop_queries_stripped in Hloop as (evs & Htr & Hall); [|done].
    rewrite Htr, drop_app_length in Hin.
    rewrite Forall_forall in Hall.
    destruct (Hall _ Hin) as (q' & res' & line & [= -> ->] & Hline & Hs & Hne).
    split; [by exists line|]. split; [done|]. split; [done|].
    by apply strip_of_stripped.
Qed.

End qa_loop_facts.

(** A backend that answers every query by itself and names no source. *)
Definition echo_query (q : pystr) (yqa : ()) : result pystr * () := (Ok q, yqa).

Definition no_source (yqa : ()) : list source_row := [].

Lemma qa_loop_follows_state_machine_witness :
  Main.qa_loop echo_query no_source false 1 Main.AwaitingQuery
    (empty_store_world [[]; lit "never read"]) =
  (Ok Main.Terminated, prompted (empty_store_world [[]; lit "never read"])
                         [lit "never read"]).
Proof.
  apply (proj1 (qa_loop_follows_state_machine echo_query no_source false)
           (empty_store_world [[]; lit "never read"]) [] [lit "never read"] 0%nat).
  - reflexivity.
  - reflexivity.
Defined.

Lemma whitespace_only_input_terminates_witness :
  Main.qa_loop echo_query no_source false 1 Main.AwaitingQuery
    (empty_store_world [[32; 12288; 9]%N]) =
  (Ok Main.Terminated, prompted (empty_store_world [[32; 12288; 9]%N]) []).
Proof.
  apply (proj1 (whitespace_only_input_terminates echo_query no_source false)
           (empty_store_world [[32; 12288; 9]%N]) [32; 12288; 9]%N [] 0%nat).
  - reflexivity.
  - reflexivity.
Defined.

(** * Further properties of the code *)

(** ** Bucketing: shape of the result *)

Section bucketing_shape.
Implicit Types (tc : TranscriptChunkModel) (chunks seen : list TranscriptChunkModel)
  (splited : list (list TranscriptChunkModel)).

Lemma bucket_index_le split_num delta tc idx :
  bucket_index split_num delta tc = Ok idx → idx ≤ split_num.
Proof.
  unfold bucket_index. intros (q & _ & H)%bind_Ok_inv. injection H as <-.
  destruct (Z.ltb_spec (int q) split_num); lia.
Qed.

Lemma divide_step_length split_num delta splited tc splited' :
  divide_step split_num delta splited tc = Ok splited' →
  Z.of_nat (length splited) ≤ split_num + 1 →
  Z.of_nat (length splited') ≤ split_num + 1.
Proof.
  intros (idx & pos & grown & Hidx & -> & _ & ->)%divide_step_inv Hlen.
  apply bucket_index_le in Hidx. rewrite length_alter.
  destruct (Z.ltb_spec (Z.of_nat (length splited)) (idx + 1)); [|done].
  rewrite length_app. simpl. lia.
Qed.

Lemma divide_loop_length split_num delta chunks splited splited' :
  divide_loop split_num delta splited chunks = Ok splited' →
  Z.of_nat (length splited) ≤ split_num + 1 →
  Z.of_nat (length splited') ≤ split_num + 1.
Proof.
  revert splited. induction chunks as [|tc chunks IH]; intros splited; simpl.
  - by intros [= <-].
  - intros (s1 & Hs1 & Hloop)%bind_Ok_inv Hlen.
    eapply IH; [exact Hloop|]. by eapply divide_step_length.
Qed.

Lemma divide_loop_cons split_num delta splited tc chunks :
  divide_loop split_num delta splited (tc :: chunks) =
  divide_step split_num delta splited tc ≫= λ splited',
    divide_loop split_num delta splited' chunks.
Proof. done. Qed.

(** On an empty list of buckets, as [split_num <= 0] gives, the first
    chunk cannot be filed. *)
Lemma divide_step_no_bucket split_num delta tc :
  split_num < 0 →
  divide_step split_num delta [] tc = Raise ZeroDivisionError ∨
  divide_step split_num delta [] tc = Raise IndexError.
Proof.
  intros Hn. unfold divide_step.
  destruct (bucket_index split_num delta tc) as [idx|e] eqn:Hidx.
  - right. apply bucket_index_le in Hidx. rewrite bind_Ok.
    change (Z.of_nat (length [])) with 0.
    rewrite (proj2 (Z.ltb_ge 0 (idx + 1))) by lia.
    change (length []) with 0%nat. unfold index.
    rewrite (proj2 (Z.leb_gt 0 idx)) by lia.
    rewrite (proj2 (Z.leb_gt 0 (Z.of_nat 0 + idx))) by lia. done.
  - left. unfold bucket_index, floordiv in Hidx.
    destruct (Qeq_bool delta 0); [|done]. by injection Hidx as <-.
Qed.

Lemma divide_split_num_zero chunks :
  chunks ≠ [] → _divide_chunks_by_time chunks 0 = Raise ZeroDivisionError.
Proof.
  intros Hne. unfold _divide_chunks_by_time.
  destruct (last_item_nonempty chunks Hne) as (last_chunk & -> & _).
  by rewrite bind_Ok, floordiv_zero.
Qed.

Lemma divide_split_num_nonpositive chunks split_num :
  split_num ≤ 0 → chunks ≠ [] →
  _divide_chunks_by_time chunks split_num = Raise ZeroDivisionError ∨
  _divide_chunks_by_time chunks split_num = Raise IndexError.
Proof.
  intros Hn Hne.
  destruct (decide (split_num = 0)) as [->|Hz]; [left; by apply divide_split_num_zero|].
  unfold _divide_chunks_by_time.
  destruct (last_item_nonempty chunks Hne) as (last_chunk & -> & _).
  rewrite bind_Ok, floordiv_nonzero, bind_Ok by (by apply inject_Z_nonzero).
  replace (Z.to_nat split_num) with 0%nat by lia.
  change (replicate 0 []) with ([] : list (list TranscriptChunkModel)).
  destruct chunks as [|tc chunks]; [done|]. rewrite divide_loop_cons.
  destruct (divide_step_no_bucket split_num
              (inject_Z (Qfloor (total_time last_chunk / inject_Z split_num))) tc)
    as [-> | ->]; [lia|by left|by right].
Qed.

Lemma divide_Ok_split_num_positive chunks split_num out :
  _divide_chunks_by_time chunks split_num = Ok out → 0 < split_num.
Proof.
  intros Hout. destruct (Z.lt_ge_cases 0 split_num) as [H|H]; [done|].
  destruct chunks as [|tc chunks]; [done|].
  destruct (divide_split_num_nonpositive (tc :: chunks) split_num) as [E|E];
    [lia|done| |]; rewrite E in Hout; done.
Qed.

(** X4: with [split_num <= 0] the function never returns.  On the empty
    list it raises [IndexError]; on a non-empty list, [ZeroDivisionError]
    for [split_num = 0] (line 119), and [ZeroDivisionError] or [IndexError]
    for a negative [split_num], for which there is no bucket to file the
    first chunk in. *)
Theorem no_buckets_without_positive_split_num chunks split_num :
  split_num ≤ 0 →
  (chunks = [] → _divide_chunks_by_time chunks split_num = Raise IndexError) ∧
  (chunks ≠ [] → split_num = 0 →
   _divide_chunks_by_time chunks split_num = Raise ZeroDivisionError) ∧
  (chunks ≠ [] →
   _divide_chunks_by_time chunks split_num = Raise ZeroDivisionError ∨
   _divide_chunks_by_time chunks split_num = Raise IndexError) ∧
  (∀ out, _divide_chunks_by_time chunks split_num ≠ Ok out).
Proof.
  intros Hn.
  split; [by intros ->|].
  split; [intros Hne ->; by apply divide_split_num_zero|].
  split; [by apply divide_split_num_nonpositive|].
  intros out Hout%divide_Ok_split_num_positive. lia.
Qed.

Lemma no_buckets_without_positive_split_num_witness :
  _divide_chunks_by_time scenario_chunks 0 = Raise ZeroDivisionError ∧
  (_divide_chunks_by_time scenario_chunks (-2) = Raise ZeroDivisionError ∨
   _divide_chunks_by_time scenario_chunks (-2) = Raise IndexError).
Proof.
  split.
  - apply (no_buckets_without_positive_split_num scenario_chunks 0); [lia|done|done].
  - apply (no_buckets_without_positive_split_num scenario_chunks (-2)); [lia|done].
Defined.

Lemma divide_shape chunks split_num out :
  _divide_chunks_by_time chunks split_num = Ok out →
  (1 ≤ length out)%nat ∧
  Z.of_nat (length out) ≤ split_num + 1 ∧
  Forall (λ sc, sc ≠ []) out.
Proof.
  intros Hout.
  pose proof (divide_Ok_split_num_positive _ _ _ Hout) as Hn.
  pose proof (divide_perm _ _ _ Hout) as Hperm.
  pose proof (divide_nonempty_buckets _ _ _ Hout) as Hne.
  apply divide_inv in Hout as (last_chunk & delta & splited & Hlast & _ & Hloop & ->).
  split; [|split; [|done]].
  - destruct (filter _ splited) as [|sc out']; [|simpl; lia].
    simpl in Hperm. apply Permutation_nil in Hperm. subst chunks. done.
  - apply divide_loop_length in Hloop.
    + pose proof (length_filter (λ sc, (0 < length sc)%nat) splited). lia.
    + rewrite length_replicate. lia.
Qed.

(** X1: whatever the chunks, a result has at least one bucket and at most
    [split_num + 1], and none of its buckets is empty. *)
Theorem at_most_split_num_plus_one_buckets chunks split_num out :
  _divide_chunks_by_time chunks split_num = Ok out →
  (1 ≤ length out)%nat ∧
  Z.of_nat (length out) ≤ split_num + 1 ∧
  Forall (λ sc, sc ≠ []) out.
Proof.
  apply divide_shape.
Qed.

Lemma at_most_split_num_plus_one_buckets_witness :
  ∃ out, _divide_chunks_by_time scenario_chunks 5 = Ok out ∧
         Z.of_nat (length out) ≤ 5 + 1.
Proof.
  eexists. split; [by vm_compute|].
  apply (at_most_split_num_plus_one_buckets scenario_chunks 5). by vm_compute.
Defined.

Lemma divide_step_sublist split_num delta splited tc splited' seen :
  divide_step split_num delta splited tc = Ok splited' →
  Forall (λ sc, sc `sublist_of` seen) splited →
  Forall (λ sc, sc `sublist_of` seen ++ [tc]) splited'.
Proof.
  intros (idx & pos & grown & _ & Hg & _ & ->)%divide_step_inv Hall.
  assert (Hgrown : Forall (λ sc, sc `sublist_of` seen) grown).
  { rewrite Hg. destruct (_ <? _); [|exact Hall].
    apply Forall_app. split; [exact Hall|]. repeat constructor.
    apply sublist_nil_l. }
  rewrite Forall_lookup in Hgrown. apply Forall_lookup. intros i sc.
  destruct (decide (pos = i)) as [<-|Hne].
  - rewrite list_lookup_alter_eq.
    destruct (grown !! pos) as [sc0|] eqn:E; [|done].
    intros [= <-]. apply sublist_app; [|done]. by eapply Hgrown.
  - rewrite list_lookup_alter_ne by done.
    intros Hsc. apply sublist_inserts_r. by eapply Hgrown.
Qed.

Lemma divide_loop_sublist split_num delta chunks splited splited' seen :
  divide_loop split_num delta splited chunks = Ok splited' →
  Forall (λ sc, sc `sublist_of` seen) splited →
  Forall (λ sc, sc `sublist_of` seen ++ chunks) splited'.
Proof.
  revert splited seen. induction chunks as [|tc chunks IH]; intros splited seen; simpl.
  - intros [= <-]. by rewrite app_nil_r.
  - intros (s1 & Hs1 & Hloop)%bind_Ok_inv Hall.
    replace (seen ++ tc :: chunks) with ((seen ++ [tc]) ++ chunks)
      by (by rewrite <- app_assoc).
    eapply IH; [exact Hloop|]. by eapply divide_step_sublist.
Qed.

(** X2: every bucket of a result lists chunks of the input in the order
    they have in the input. *)
Theorem buckets_keep_input_order chunks split_num out :
  _divide_chunks_by_time chunks split_num = Ok out →
  Forall (λ sc, sc `sublist_of` chunks) out.
Proof.
  intros (last_chunk & delta & splited & _ & _ & Hloop & ->)%divide_inv.
  apply (divide_loop_sublist _ _ _ _ _ []) in Hloop.
  - apply Forall_forall. intros sc [_ Hsc]%list_elem_of_filter.
    rewrite Forall_forall in Hloop. by apply Hloop.
  - apply Forall_replicate. apply sublist_nil_l.
Qed.

Lemma buckets_keep_input_order_witness :
  ∃ out, _divide_chunks_by_time scenario_chunks 5 = Ok out ∧
         Forall (λ sc, sc `sublist_of` scenario_chunks) out.
Proof.
  eexists. split; [by vm_compute|].
  apply (buckets_keep_input_order scenario_chunks 5). by vm_compute.
Defined.

(** The index does not decrease when the start time grows. *)
Lemma clamped_index_mono split_num (w : Z) tc1 tc2 :
  0 < w → (start tc1 <= start tc2)%Q →
  clamped_index split_num (inject_Z w) tc1 ≤ clamped_index split_num (inject_Z w) tc2.
Proof.
  intros Hw Hs. unfold clamped_index.
  assert (Qfloor (start tc1 / inject_Z w) ≤ Qfloor (start tc2 / inject_Z w)); [|lia].
  apply Qfloor_resp_le. apply Qmult_le_compat_r; [done|].
  apply Qinv_le_0_compat. unfold Qle, inject_Z. simpl. lia.
Qed.

Lemma filter_key_split {A} (key : A → Z) (lo : Z) (l : list A) :
  StronglySorted (λ a b, key a ≤ key b) l →
  Forall (λ a, lo ≤ key a) l →
  filter (λ a, key a = lo) l ++ filter (λ a, key a ≠ lo) l = l.
Proof.
  induction 1 as [|a l Hsorted IH Hall]; intros Hlo; [done|].
  apply Forall_cons in Hlo as [Ha Hlo]. rewrite !filter_cons.
  destruct (decide (key a = lo)) as [Heq|Hne].
  - rewrite decide_False by (intros ?; done). simpl. by rewrite IH.
  - rewrite decide_True by done.
    assert (Hgt : Forall (λ b, key b ≠ lo) l).
    { eapply Forall_impl; [exact Hall|]. simpl. intros b Hb. lia. }
    assert (H1 : filter (λ a, key a = lo) l = []).
    { clear -Hgt. induction Hgt as [|b l Hb _ IH]; [done|].
      by rewrite filter_cons_False. }
    assert (H2 : filter (λ a, key a ≠ lo) l = l).
    { clear -Hgt. induction Hgt as [|b l Hb _ IH]; [done|].
      rewrite filter_cons_True by done. by rewrite IH. }
    by rewrite H1, H2.
Qed.

Lemma StronglySorted_filter {A} (R : relation A) (P : A → Prop)
    `{!∀ a, Decision (P a)} (l : list A) :
  StronglySorted R l → StronglySorted R (filter P l).
Proof.
  induction 1 as [|a l Hsorted IH Hall]; [constructor|].
  rewrite filter_cons. destruct (decide (P a)); [|done].
  constructor; [done|].
  apply Forall_forall. intros b [_ Hb]%list_elem_of_filter.
  rewrite Forall_forall in Hall. by apply Hall.
Qed.

(** Collecting a list sorted by a key, key by key in ascending order,
    gives the list back. *)
Lemma concat_by_key {A} (key : A → Z) (m : nat) (lo : Z) (l : list A) :
  StronglySorted (λ a b, key a ≤ key b) l →
  Forall (λ a, lo ≤ key a < lo + Z.of_nat m) l →
  concat ((λ k, filter (λ a, key a = k) l) <$> seqZ lo (Z.of_nat m)) = l.
Proof.
  revert lo l. induction m as [|m IH]; intros lo l Hsorted Hall.
  - destruct l as [|a l]; [done|].
    apply Forall_cons in Hall as [Ha _]. lia.
  - rewrite seqZ_cons by lia. rewrite fmap_cons. simpl concat.
    replace (Z.pred (Z.of_nat (S m))) with (Z.of_nat m) by lia.
    transitivity (filter (λ a, key a = lo) l ++ filter (λ a, key a ≠ lo) l).
    2:{ apply filter_key_split; [done|].
        eapply Forall_impl; [exact Hall|]. simpl. intros a Ha. lia. }
    f_equal.
    rewrite <- (IH (Z.succ lo) (filter (λ a, key a ≠ lo) l)).
    + f_equal. apply list_fmap_ext. intros i k Hk.
      apply list_elem_of_lookup_2, elem_of_seqZ in Hk.
      rewrite list_filter_filter. apply list_filter_iff. intros a. lia.
    + by apply StronglySorted_filter.
    + apply Forall_forall. intros a [Hne Ha]%list_elem_of_filter.
      rewrite Forall_forall in Hall. specialize (Hall _ Ha). lia.
Qed.

(** X3: for chunks in the order of their start times, none negative, with
    [split_num >= 1] and a bucket width of at least 1, the index does not
    decrease along the chunks, and the buckets are consecutive pieces of
    the chunk list: put end to end they are the list. *)
Theorem sorted_chunks_are_cut_in_pieces chunks split_num last_chunk (w : Z) :
  last_item chunks = Ok last_chunk →
  1 ≤ split_num →
  w = Qfloor (total_time last_chunk / inject_Z split_num) →
  1 ≤ w →
  Forall (λ tc, (0 <= start tc)%Q) chunks →
  StronglySorted (λ tc1 tc2, (start tc1 <= start tc2)%Q) chunks →
  StronglySorted (λ tc1 tc2, clamped_index split_num (inject_Z w) tc1
                             ≤ clamped_index split_num (inject_Z w) tc2) chunks ∧
  ∃ out, _divide_chunks_by_time chunks split_num = Ok out ∧ concat out = chunks.
Proof.
  intros Hlast Hn Hw Hw1 Hpos Hsorted.
  assert (Hidx : StronglySorted
                   (λ tc1 tc2, clamped_index split_num (inject_Z w) tc1
                               ≤ clamped_index split_num (inject_Z w) tc2) chunks).
  { clear -Hsorted Hw1. induction Hsorted as [|tc chunks _ IH Hall]; constructor; [done|].
    eapply Forall_impl; [exact Hall|]. simpl. intros tc2 Hle.
    apply clamped_index_mono; [lia|done]. }
  split; [done|]. eexists. split.
  - apply (divide_nonneg _ _ last_chunk (inject_Z w)); [done| | |lia|].
    + rewrite floordiv_nonzero by (apply inject_Z_nonzero; lia). by rewrite Hw.
    + apply inject_Z_nonzero. lia.
    + eapply Forall_impl; [exact Hpos|]. intros tc Htc.
      apply clamped_index_nonneg; [lia|lia|done].
  - rewrite concat_filter_nonempty. unfold buckets_upto, bucket_at.
    replace (split_num + 1) with (Z.of_nat (Z.to_nat (split_num + 1))) by lia.
    apply concat_by_key; [done|].
    eapply Forall_impl; [exact Hpos|]. intros tc Htc. simpl.
    pose proof (clamped_index_nonneg split_num w tc ltac:(lia) ltac:(lia) Htc).
    pose proof (clamped_index_le split_num (inject_Z w) tc). lia.
Qed.

Lemma sorted_chunks_are_cut_in_pieces_witness :
  ∃ out, _divide_chunks_by_time scenario_chunks 5 = Ok out ∧
         concat out = scenario_chunks.
Proof.
  destruct (sorted_chunks_are_cut_in_pieces scenario_chunks 5 (scenario_chunk 9) 18)
    as (_ & out & Hout & Hcat).
  - reflexivity.
  - lia.
  - by vm_compute.
  - lia.
  - repeat constructor; vm_compute; discriminate.
  - repeat constructor; vm_compute; discriminate.
  - by exists out.
Defined.



End bucketing_shape.

(** ** The summarization run: what it stores and when it calls *)

Section run_more.
Context {L : Type}.
Variable setup_llm_from_environment : L → result () * L.
Variable arun : list pystr → L → result pystr * L.
Implicit Types (σ : state L) (self : YoutubeSummarize).





(** What [run] does when the bucketing raises: the chain has run once,
    on all the chunks, and its summary is lost. *)
Lemma run_bucketing_raises self σ concise x e :
  arun (text <$> chunks self) (ext σ) = (Ok concise, x) →
  _divide_chunks_by_time (chunks self) 5 = Raise e →
  run arun self σ =
  (Raise e, after_chain σ (text <$> chunks self) (Ok concise) x).
Proof.
  intros Hrun Hdiv. unfold run.
  rewrite io_bind_eq, invoke_chain_eq, Hrun. simpl.
  rewrite io_bind_eq. unfold lift at 1. by rewrite Hdiv.
Qed.

(** X8: a summarizer that has not been prepared cannot run.  What
    [__init__] builds has no chunks; [run] on it hands the chain no
    document at all, and when the chain answers nevertheless, the
    bucketing raises [IndexError]: no file is written and the answer is
    lost. *)
Theorem unprepared_summarizer_cannot_run vid debug σ0 self σ :
  __init__ setup_llm_from_environment vid debug σ0 = (Ok self, σ) →
  chunks self = [] ∧
  run arun self σ =
  ((arun [] (ext σ)).1 ≫= λ _, Raise IndexError,
   after_chain σ [] (arun [] (ext σ)).1 (arun [] (ext σ)).2) ∧
  files (run arun self σ).2 = files σ0 ∧
  dirs (run arun self σ).2 = dirs σ0.
Proof.
  intros Hinit.
  assert (Hchunks : chunks self = []).
  { revert Hinit. unfold __init__. destruct (is_empty vid); [done|].
    rewrite io_bind_eq. destruct (store_path vid σ0) as [[path|e] σ1]; [|done].
    rewrite io_bind_eq. destruct (external _ _ σ1) as [[[]|e] σ2]; [|done].
    by intros [= <- _]. }
  apply init_summary_file in Hinit as (dir & _ & _ & _ & _ & Hf & Hd).
  split; [done|].
  assert (Hrun : run arun self σ =
            ((arun [] (ext σ)).1 ≫= λ _, Raise IndexError,
             after_chain σ [] (arun [] (ext σ)).1 (arun [] (ext σ)).2)).
  { destruct (arun [] (ext σ)) as [[concise|e] x] eqn:Harun.
    - rewrite (run_bucketing_raises self σ concise x IndexError);
        rewrite Hchunks; done.
    - unfold run. rewrite io_bind_eq, invoke_chain_eq, Hchunks.
      simpl. by rewrite Harun. }
  split; [done|]. by rewrite Hrun.
Qed.


(** X10: [__init__] checks before it sets up the LLM.  An empty video id
    raises [ValueError] and an unset [SUMMARY_STORE_DIR] raises
    [KeyError], both with the world untouched, the LLM included;
    otherwise the LLM is set up, and when that goes through the object
    has the watch URL and the store path of the video, an empty title and
    no chunks. *)
Theorem init_checks_before_llm_setup vid debug σ :
  (vid = [] →
   __init__ setup_llm_from_environment vid debug σ = (Raise ValueError, σ)) ∧
  (vid ≠ [] → env σ !! SUMMARY_STORE_DIR = None →
   __init__ setup_llm_from_environment vid debug σ =
   (Raise (KeyError SUMMARY_STORE_DIR), σ)) ∧
  (∀ dir, vid ≠ [] → env σ !! SUMMARY_STORE_DIR = Some dir →
   __init__ setup_llm_from_environment vid debug σ =
   ((setup_llm_from_environment (ext σ)).1 ≫= λ _,
      Ok {| Summarize.vid := vid; Summarize.debug := debug;
            url := lit "https://www.youtube.com/watch?v=" ++ vid;
            title := [];
            summary_file := dir ++ lit "/" ++ vid;
            chain_type := lit "map_reduce";
            chunks := [] |},
    State (env σ) (files σ) (dirs σ) (stdin σ) (stdout σ) (trace σ)
      (setup_llm_from_environment (ext σ)).2)).
Proof.
  split; [|split].
  - by intros ->.
  - intros Hvid Henv. unfold __init__.
    destruct (is_empty vid) eqn:He; [by apply is_empty_true in He|].
    by rewrite io_bind_eq, store_path_unset.
  - intros dir Hvid Henv. unfold __init__.
    destruct (is_empty vid) eqn:He; [by apply is_empty_true in He|].
    rewrite io_bind_eq, (store_path_eq _ dir) by done.
    rewrite io_bind_eq. unfold external.
    destruct (setup_llm_from_environment (ext σ)) as [[[]|e] x]; simpl.
    + by rewrite app_nil_r.
    + by rewrite app_nil_r.
Qed.

End run_more.




(** An LLM set-up that goes through. *)
Definition ready_llm (n : nat) : result () * nat := (Ok (), n).

Lemma init_checks_before_llm_setup_witness :
  __init__ ready_llm (lit "abc") false (State ∅ ∅ ∅ [] [] [] 0%nat) =
  (Raise (KeyError SUMMARY_STORE_DIR), State ∅ ∅ ∅ [] [] [] 0%nat).
Proof.
  apply (proj1 (proj2 (init_checks_before_llm_setup ready_llm (lit "abc") false
                         (State ∅ ∅ ∅ [] [] [] 0%nat)))).
  - done.
  - apply lookup_empty.
Defined.

Lemma unprepared_summarizer_cannot_run_witness :
  ∃ self σ,
    __init__ ready_llm (lit "abc") false sample_world = (Ok self, σ) ∧
    (run steady_arun self σ).1 = Raise IndexError ∧
    files (run steady_arun self σ).2 = files sample_world.
Proof.
  destruct (__init__ ready_llm (lit "abc") false sample_world) as [r σ] eqn:E.
  assert (Hr : is_ok r = true).
  { change r with (r, σ).1. rewrite <- E. by vm_compute. }
  destruct r as [self|e]; [|done].
  destruct (unprepared_summarizer_cannot_run ready_llm steady_arun _ _ _ _ _ E)
    as (_ & Hrun & Hf & _).
  exists self, σ. split; [done|]. split; [|done].
  by rewrite Hrun.
Defined.



(** ** The store directory *)

Section store_directory.
Implicit Types (s dir vid : pystr).

Lemma from_slash_no_slash s t :
  slash ∉ s → from_slash (s ++ slash :: t) = slash :: t.
Proof.
  induction s as [|c s IH]; intros Hs; simpl.
  - done.
  - apply not_elem_of_cons in Hs as [Hc Hs].
    destruct (N.eqb_spec c slash) as [->|_]; [done|]. by apply IH.
Qed.

Lemma lstrip_slash_head c s : c ≠ slash → lstrip_slash (c :: s) = c :: s.
Proof. intros Hc. simpl. by destruct (N.eqb_spec c slash). Qed.

(** [os.path.dirname] of [dir/vid] is [dir], for a video id without a
    slash and a directory name that does not end in one. *)
Lemma dirname_store_path dir vid :
  dir ≠ [] → last dir ≠ Some slash → slash ∉ vid →
  dirname (dir ++ lit "/" ++ vid) = dir.
Proof.
  intros Hdir Hlast Hvid. unfold dirname.
  change (lit "/" ++ vid) with (slash :: vid).
  assert (Hhead : rev (from_slash (rev (dir ++ slash :: vid))) = dir ++ [slash]).
  { rewrite rev_app_distr. simpl. rewrite <- app_assoc. simpl.
    rewrite from_slash_no_slash.
    - simpl. by rewrite rev_involutive.
    - intros Hin. apply Hvid. by apply list_elem_of_In, in_rev, list_elem_of_In. }
  rewrite Hhead. clear Hhead.
  induction dir as [|c dir _] using rev_ind; [done|].
  rewrite last_snoc in Hlast.
  assert (Hc : c ≠ slash) by (by intros ->).
  assert (Hall : forallb (N.eqb slash) ((dir ++ [c]) ++ [slash]) = false).
  { rewrite !forallb_app.
    change (forallb (N.eqb slash) [c]) with ((slash =? c)%N && true).
    rewrite (proj2 (N.eqb_neq slash c)) by done.
    by rewrite andb_false_r. }
  rewrite Hall. unfold rstrip_slash. rewrite !rev_app_distr.
  change (rev [slash] ++ rev [c] ++ rev dir) with (slash :: c :: rev dir).
  change (lstrip_slash (slash :: c :: rev dir)) with (lstrip_slash (c :: rev dir)).
  rewrite lstrip_slash_head by done.
  simpl. by rewrite rev_involutive.
Qed.

End store_directory.

(** ** From the run to the QA session *)

Section run_to_qa.
Context {L B : Type}.
Variable setup_llm_from_environment : L → result () * L.
Variable arun : list pystr → L → result pystr * L.
Implicit Types (self : YoutubeSummarize) (vid dir : pystr).

(** What a run that returns has done. *)
Lemma run_Ok_inv self (σ : state L) summary σ' :
  run arun self σ = (Ok summary, σ') →
  ∃ concise buckets details σ2,
    logged σ (EvChain (text <$> chunks self) (Ok concise) ::
              detail_events 0 buckets details) σ2 ∧
    _divide_chunks_by_time (chunks self) 5 = Ok buckets ∧
    length details = length buckets ∧
    summary = summary_dict self details concise ∧
    save self summary σ2 = (Ok (), σ').
Proof.
  intros Hrun.
  apply run_spec in Hrun as (evs & σ2 & Hlog & Hcases).
  destruct Hcases as [(e & evs0 & docs' & ? & _)
                     |[(e & concise & ? & _)
                      |(concise & buckets & details & rs & -> & Hdiv & Hlen & Hsave & Hr)]];
    [done|done|].
  destruct rs as [[]|e]; [|done]. injection Hr as ->.
  by exists concise, buckets, details, σ2.
Qed.




(** X11: the first run creates the store directory.  For a summarizer
    built by [__init__] with [SUMMARY_STORE_DIR] set to a directory name
    that does not end in a slash, and a video id without a slash, a run
    that returns leaves that directory in place, with the summary in the
    file named by the video id in it. *)
Theorem first_run_creates_the_store_directory vid debug dir self0 self
    (σ0 σ1 σ σ' : state L) summary :
  __init__ setup_llm_from_environment vid debug σ0 = (Ok self0, σ1) →
  summary_file self = summary_file self0 →
  env σ0 !! SUMMARY_STORE_DIR = Some dir →
  dir ≠ [] → last dir ≠ Some slash → slash ∉ vid →
  run arun self σ = (Ok summary, σ') →
  dir ∈ dirs σ' ∧
  files σ' !! (dir ++ lit "/" ++ vid) = Some (dumps summary) ∧
  dir ++ lit "/" ++ vid ∉ dirs σ'.
Proof.
  intros Hinit Hself Henv Hdir Hlast Hvid Hrun.
  apply init_summary_file in Hinit as (dir' & Henv' & Hfile & _).
  assert (dir' = dir) as -> by congruence.
  apply run_Ok_inv in Hrun as (concise & buckets & details & σ2 & _ & _ & _ & _ & Hsave).
  apply save_Ok in Hsave as (Hf & Hd & Hnd).
  rewrite Hself, Hfile in Hf, Hd, Hnd.
  rewrite dirname_store_path in Hd by done.
  split; [rewrite Hd; apply elem_of_union_l; by apply elem_of_singleton|].
  split; [rewrite Hf; apply lookup_insert_eq|done].
Qed.


End run_to_qa.

(** ** The QA session: the stored summary *)

Section qa_entry.
Context {B : Type}.
Variable YoutubeQA : pystr → Z → bool → bool → io B ().
Variable prepare_query : io B ().
Variable run_query : pystr → B → result pystr * B.
Variable get_source : B → list source_row.
Implicit Types (σ : state B) (vid dir content : pystr).

(** X12: the QA session needs [SUMMARY_STORE_DIR], although the summary
    is optional.  With the variable unset the check of line 20 raises
    [KeyError]: after the backend has been prepared the session ends
    there, before any prompt, whatever the input. *)
Theorem unset_store_dir_aborts_qa vid σ :
  env σ !! SUMMARY_STORE_DIR = None →
  Main.show_summary vid σ = (Raise (KeyError SUMMARY_STORE_DIR), σ) ∧
  ∀ args (fuel : nat) σ0 σ1,
    Main.vid args = vid →
    YoutubeQA (Main.vid args) (Main.source args) (Main.detail args)
      (Main.debug args) σ0 = (Ok (), σ1) →
    prepare_query σ1 = (Ok (), σ) →
    Main.qa YoutubeQA prepare_query run_query get_source args fuel σ0 =
    (Raise (KeyError SUMMARY_STORE_DIR), σ).
Proof.
  intros Henv.
  assert (Hshow : Main.show_summary vid σ = (Raise (KeyError SUMMARY_STORE_DIR), σ)).
  { unfold Main.show_summary, Main.read_summary.
    by rewrite !io_bind_eq, store_path_unset. }
  split; [done|].
  intros args fuel σ0 σ1 <- Hnew Hprep. unfold Main.qa.
  by rewrite io_bind_eq, Hnew, io_bind_eq, Hprep, io_bind_eq, Hshow.
Qed.


End qa_entry.


Lemma first_run_creates_the_store_directory_witness :
  ∃ self0 σ1 summary σ',
    __init__ ready_llm (lit "abc") false sample_world = (Ok self0, σ1) ∧
    run steady_arun sample_self σ1 = (Ok summary, σ') ∧
    lit "store" ∈ dirs σ'.
Proof.
  destruct (__init__ ready_llm (lit "abc") false sample_world) as [r0 σ1] eqn:E0.
  assert (Hr0 : is_ok r0 = true ∧
                ∀ s, r0 = Ok s → summary_file sample_self = summary_file s).
  { change r0 with (r0, σ1).1. rewrite <- E0. split; [by vm_compute|].
    vm_compute. by intros s [= <-]. }
  destruct r0 as [self0|e]; [|by destruct Hr0].
  destruct (run steady_arun sample_self σ1) as [r σ'] eqn:E.
  assert (Hr : is_ok r = true).
  { change r with (r, σ').1. rewrite <- E.
    change σ1 with (Ok self0, σ1).2. rewrite <- E0. by vm_compute. }
  destruct r as [summary|e]; [|done].
  exists self0, σ1, summary, σ'. split; [done|]. split; [done|].
  destruct (first_run_creates_the_store_directory ready_llm steady_arun
              (lit "abc") false (lit "store") self0 sample_self
              sample_world σ1 σ1 σ' summary) as (Hd & _).
  - exact E0.
  - by apply Hr0.
  - by vm_compute.
  - done.
  - by vm_compute.
  - vm_compute. intros H. by repeat (apply elem_of_cons in H as [H|H]; [done|]);
      apply not_elem_of_nil in H.
  - exact E.
  - exact Hd.
Defined.


Lemma unset_store_dir_aborts_qa_witness :
  Main.show_summary (lit "abc")
    (State ∅ ∅ ∅ [lit "a question"] [] [] ()) =
  (Raise (KeyError SUMMARY_STORE_DIR), State ∅ ∅ ∅ [lit "a question"] [] [] ()).
Proof.
  apply (unset_store_dir_aborts_qa (λ _ _ _ _, mret ()) (mret ())
           (λ q b, (Ok q, b)) (λ _, [])
           (lit "abc") (State ∅ ∅ ∅ [lit "a question"] [] [] ())).
  apply lookup_empty.
Defined.


(** ** The QA loop: how a session ends and what it prints *)

Section qa_loop_more.
Context {B : Type}.
Variable run_query : pystr → B → result pystr * B.
Variable get_source : B → list source_row.
Variable detail : bool.
Implicit Types (σ : state B) (st : Main.qa_state) (q line : pystr).

Local Abbreviation qa_step := (Main.qa_step run_query get_source detail).
Local Abbreviation qa_loop := (Main.qa_loop run_query get_source detail).
Local Abbreviation AwaitingQuery := Main.AwaitingQuery.
Local Abbreviation Answering := Main.Answering.
Local Abbreviation Terminated := Main.Terminated.
Local Abbreviation after_answer := (answered get_source detail).
Local Abbreviation shown_answer := (answer_output get_source detail).

(** The backend calls for the lines [read], answered by [answers]. *)
Definition asked (read answers : list pystr) : list event :=
  zip_with (λ line a, EvQuery (strip line) (Ok a)) read answers.

(** A session that ends by an exception [e]: the lines [read] have been
    answered; then either the input was at its end, or the backend has
    raised on the next line, the lines after it being left unread. *)
Definition ends_badly σ (e : exn) σ' : Prop :=
  ∃ read answers,
    length answers = length read ∧
    Forall (λ line, strip line ≠ []) read ∧
    ((e = EOFError ∧ stdin σ = read ∧ stdin σ' = [] ∧
      trace σ' = trace σ ++ asked read answers ∧
      last (stdout σ') = Some (OutPrompt (lit "Query: "))) ∨
     (∃ line, stdin σ = read ++ line :: stdin σ' ∧ strip line ≠ [] ∧
        trace σ' = trace σ ++ asked read answers ++ [EvQuery (strip line) (Raise e)] ∧
        last (stdout σ') = Some OutAnswerLabel)).

Lemma ends_badly_answered σ line rest a yqa e σ' :
  stdin σ = line :: rest → strip line ≠ [] →
  ends_badly (after_answer (prompted σ rest) (strip line) a yqa) e σ' →
  ends_badly σ e σ'.
Proof.
  intros Hin Hline (read & answers & Hlen & Hall & Hend).
  exists (line :: read), (a :: answers).
  split; [simpl; by rewrite Hlen|]. split; [by constructor|].
  destruct Hend as [(-> & Hread & Hrest & Htr & Hout)|(next & Hread & Hnext & Htr & Hout)].
  - left. simpl in Hread, Htr. split; [done|]. split; [by rewrite Hin, Hread|].
    split; [done|]. split; [|done].
    rewrite Htr. by rewrite <- app_assoc.
  - right. simpl in Hread, Htr. exists next.
    split; [by rewrite Hin, Hread|]. split; [done|]. split; [|done].
    rewrite Htr. by rewrite <- app_assoc.
Qed.

Lemma qa_loop_raises (fuel : nat) :
  (∀ σ e σ', qa_loop fuel AwaitingQuery σ = (Raise e, σ') → ends_badly σ e σ') ∧
  (∀ q σ e σ', qa_loop fuel (Answering q) σ = (Raise e, σ') →
     (∃ yqa, run_query q (ext σ) = (Raise e, yqa) ∧ σ' = unanswered σ q e yqa) ∨
     (∃ a yqa, run_query q (ext σ) = (Ok a, yqa) ∧
               ends_badly (after_answer σ q a yqa) e σ')).
Proof.
  induction fuel as [|fuel [IHa IHq]]; [by split|].
  split.
  - intros σ e σ'. rewrite qa_loop_succ by done.
    destruct (stdin σ) as [|line rest] eqn:Hin.
    { rewrite qa_step_eof by done. intros [= <- <-].
      exists [], []. split; [done|]. split; [done|]. left.
      split; [done|]. split; [done|]. split; [done|].
      split; [simpl; by rewrite app_nil_r|]. simpl. apply last_snoc. }
    rewrite (qa_step_awaiting _ _ _ _ _ _ Hin).
    destruct (is_empty (strip line)) eqn:He.
    { by rewrite qa_loop_terminated. }
    assert (Hline : strip line ≠ []).
    { intros E. by rewrite E in He. }
    intros [(yqa & Hrun & ->)|(a & yqa & Hrun & Hend)]%IHq.
    + exists [], []. split; [done|]. split; [done|]. right.
      exists line. split; [done|]. split; [done|]. split; [done|].
      simpl. apply last_snoc.
    + by eapply ends_badly_answered.
  - intros q σ e σ'. rewrite qa_loop_succ by done.
    rewrite qa_step_answering.
    destruct (run_query q (ext σ)) as [[a|e'] yqa].
    + intros Hloop%IHa. right. by exists a, yqa.
    + intros [= <- <-]. left. by exists yqa.
Qed.

(** X15: the loop has two abnormal ends only.  A session that ends by an
    exception has answered the lines it read before, one backend call per
    line in order; then either the input was at its end, the exception is
    [EOFError] and the last thing printed is the prompt; or the backend
    raised the exception on the next line, the last thing printed is
    the answer label, and the lines after that one are left unread. *)
Theorem qa_loop_ends_badly_by_eof_or_backend (fuel : nat) σ e σ' :
  qa_loop fuel AwaitingQuery σ = (Raise e, σ') →
  ends_badly σ e σ'.
Proof. apply qa_loop_raises. Qed.

Lemma qa_loop_eof (fuel : nat) :
  (∀ q y, is_ok (run_query q y).1 = true) →
  (∀ σ, Forall (λ line, strip line ≠ []) (stdin σ) →
        (2 * length (stdin σ) + 1 ≤ fuel)%nat →
        (qa_loop fuel AwaitingQuery σ).1 = Raise EOFError ∧
        stdin (qa_loop fuel AwaitingQuery σ).2 = [] ∧
        length (answers_of (stdout (qa_loop fuel AwaitingQuery σ).2)) =
          (length (answers_of (stdout σ)) + length (stdin σ))%nat) ∧
  (∀ q σ, Forall (λ line, strip line ≠ []) (stdin σ) →
          (2 * length (stdin σ) + 2 ≤ fuel)%nat →
          (qa_loop fuel (Answering q) σ).1 = Raise EOFError ∧
          stdin (qa_loop fuel (Answering q) σ).2 = [] ∧
          length (answers_of (stdout (qa_loop fuel (Answering q) σ).2)) =
            (length (answers_of (stdout σ)) + S (length (stdin σ)))%nat).
Proof.
  intros Hbackend.
  induction fuel as [|fuel [IHa IHq]]; [split; intros; lia|].
  split.
  - intros σ Hall Hfuel. rewrite qa_loop_succ by done.
    destruct (stdin σ) as [|line rest] eqn:Hin.
    { rewrite qa_step_eof by done. simpl. split; [done|]. split; [done|].
      rewrite answers_of_app, length_app. simpl. lia. }
    rewrite (qa_step_awaiting _ _ _ _ _ _ Hin).
    apply Forall_cons in Hall as [Hline Hall].
    destruct (is_empty (strip line)) eqn:He.
    { by apply is_empty_true in He. }
    destruct (IHq (strip line) (prompted σ rest)) as (Hr & Hs & Ha).
    + done.
    + simpl in *. lia.
    + split; [done|]. split; [done|]. rewrite Ha. simpl.
      rewrite answers_of_app, length_app. simpl. lia.
  - intros q σ Hall Hfuel. rewrite qa_loop_succ by done.
    rewrite qa_step_answering.
    specialize (Hbackend q (ext σ)).
    destruct (run_query q (ext σ)) as [[a|e] yqa]; [|done].
    destruct (IHa (after_answer σ q a yqa)) as (Hr & Hs & Ha).
    + done.
    + simpl. lia.
    + split; [done|]. split; [done|]. rewrite Ha. simpl.
      change (OutAnswerLabel :: shown_answer a yqa)
        with ([OutAnswerLabel] ++ shown_answer a yqa).
      rewrite !answers_of_app, answers_of_answer_output, !length_app. simpl. lia.
Qed.

(** X16: an input without a blank line ends in [EOFError].  With a
    backend that answers every query, and fuel for every line, the loop
    answers every line of the input, one answer each, prompts once more
    and raises [EOFError] at the end of the input: it does not return. *)
Theorem input_without_blank_line_ends_in_EOFError (fuel : nat) σ :
  (∀ q y, is_ok (run_query q y).1 = true) →
  Forall (λ line, strip line ≠ []) (stdin σ) →
  (2 * length (stdin σ) + 1 ≤ fuel)%nat →
  (qa_loop fuel AwaitingQuery σ).1 = Raise EOFError ∧
  stdin (qa_loop fuel AwaitingQuery σ).2 = [] ∧
  length (answers_of (stdout (qa_loop fuel AwaitingQuery σ).2)) =
    (length (answers_of (stdout σ)) + length (stdin σ))%nat.
Proof. intros Hbackend. by apply qa_loop_eof. Qed.

(** What is printed beside the prompts and the answer labels. *)
Definition is_body (o : output) : bool :=
  match o with OutPrompt _ | OutAnswerLabel => false | _ => true end.

(** The answer of a backend call that returned. *)
Definition answer_of (ev : event) : option pystr :=
  match ev with EvQuery _ (Ok a) => Some a | _ => None end.

Lemma filter_is_body_answer_output a yqa :
  List.filter is_body (shown_answer a yqa) = shown_answer a yqa.
Proof.
  unfold answer_output. simpl. f_equal.
  destruct detail; [|done]. rewrite List.filter_app. simpl. f_equal.
  induction (get_source yqa) as [|row rows IH]; [done|]. simpl. f_equal. exact IH.
Qed.

(** What a session has printed and asked, whatever its end: [steps] are
    the answers with the state of the backend after each. *)
Definition printed σ (steps : list (pystr * B)) σ' : Prop :=
  ∃ out evs,
    stdout σ' = stdout σ ++ out ∧
    trace σ' = trace σ ++ evs ∧
    List.filter is_body out = flat_map (λ s, shown_answer s.1 s.2) steps ∧
    omap answer_of evs = steps.*1 ∧
    Forall (λ s, ∃ q y, run_query q y = (Ok s.1, s.2)) steps.

Lemma printed_refl σ : printed σ [] σ.
Proof. exists [], []. by rewrite !app_nil_r. Qed.

Lemma qa_loop_printed (fuel : nat) st σ r σ' :
  qa_loop fuel st σ = (r, σ') → ∃ steps, printed σ steps σ'.
Proof.
  revert st σ. induction fuel as [|fuel IH]; intros st σ.
  - destruct st; simpl; rewrite io_ret_eq; intros [= <- <-];
      exists []; apply printed_refl.
  - destruct st as [|q|].
    + rewrite qa_loop_succ by done.
      destruct (stdin σ) as [|line rest] eqn:Hin.
      { rewrite qa_step_eof by done. intros [= <- <-].
        exists [], [OutPrompt (lit "Query: ")], [].
        by rewrite app_nil_r. }
      rewrite (qa_step_awaiting _ _ _ _ _ _ Hin).
      intros (steps & out & evs & Hout & Htr & Hbody & Hans & Hall)%IH.
      exists steps, (OutPrompt (lit "Query: ") :: out), evs.
      split; [rewrite Hout; simpl; by rewrite <- app_assoc|].
      by split.
    + rewrite qa_loop_succ by done. rewrite qa_step_answering.
      destruct (run_query q (ext σ)) as [[a|e] yqa] eqn:Hrun.
      * intros (steps & out & evs & Hout & Htr & Hbody & Hans & Hall)%IH.
        exists ((a, yqa) :: steps),
          (OutAnswerLabel :: shown_answer a yqa ++ out),
          (EvQuery q (Ok a) :: evs).
        split; [rewrite Hout; simpl; by rewrite <- !app_assoc|].
        split; [rewrite Htr; simpl; by rewrite <- app_assoc|].
        split.
        { change (OutAnswerLabel :: shown_answer a yqa ++ out)
            with ([OutAnswerLabel] ++ shown_answer a yqa ++ out).
          rewrite !List.filter_app, filter_is_body_answer_output, Hbody.
          reflexivity. }
        split; [simpl; f_equal; exact Hans|].
        constructor; [by exists q, (ext σ)|done].
      * intros [= <- <-]. exists [], [OutAnswerLabel], [EvQuery q (Raise e)].
        by repeat split.
    + rewrite qa_loop_terminated. intros [= <- <-].
      exists []. apply printed_refl.
Qed.

(** X17: what a session prints, whatever its end.  Beside the prompts and
    the answer labels, the console shows, for each backend call that
    returned and in the order of the calls, the answer, and with
    [--detail] the sources the backend reports right after that call and a
    blank line; without [--detail] the answers are all there is. *)
Theorem session_prints_answers_and_their_sources (fuel : nat) σ r σ' :
  qa_loop fuel AwaitingQuery σ = (r, σ') →
  ∃ out evs steps,
    stdout σ' = stdout σ ++ out ∧
    trace σ' = trace σ ++ evs ∧
    omap answer_of evs = steps.*1 ∧
    Forall (λ s, ∃ q y, run_query q y = (Ok s.1, s.2)) steps ∧
    List.filter is_body out =
      flat_map (λ s, OutAnswer s.1 ::
                     if detail then (OutSource <$> get_source s.2) ++ [OutBlank]
                     else []) steps ∧
    (detail = false → List.filter is_body out = OutAnswer <$> steps.*1).
Proof.
  intros (steps & out & evs & Hout & Htr & Hbody & Hans & Hall)%qa_loop_printed.
  exists out, evs, steps. repeat (split; [done|]).
  intros ->. rewrite Hbody. clear.
  induction steps as [|s steps IH]; [done|]. simpl. by rewrite IH.
Qed.

End qa_loop_more.

(** A backend that fails on every query. *)
Definition broken_query (q : pystr) (yqa : ()) : result pystr * () :=
  (Raise (External (lit "no index")), yqa).

(** A backend that names one source for every answer. *)
Definition one_source (yqa : ()) : list source_row :=
  [{| score := inject_Z 1; chunk_id := lit "abc-0";
      time_label := lit "00:00:00"; source_text := lit "hello" |}].

Lemma qa_loop_ends_badly_by_eof_or_backend_witness :
  ends_badly (empty_store_world [lit "why"; lit "never read"])
    (External (lit "no index"))
    (Main.qa_loop broken_query no_source false 5 Main.AwaitingQuery
       (empty_store_world [lit "why"; lit "never read"])).2 ∧
  stdin (Main.qa_loop broken_query no_source false 5 Main.AwaitingQuery
           (empty_store_world [lit "why"; lit "never read"])).2 =
    [lit "never read"].
Proof.
  split; [|by vm_compute].
  apply (qa_loop_ends_badly_by_eof_or_backend broken_query no_source false 5%nat).
  by vm_compute.
Defined.

Lemma input_without_blank_line_ends_in_EOFError_witness :
  (Main.qa_loop echo_query no_source false 5 Main.AwaitingQuery
     (empty_store_world [lit "why"; lit "how"])).1 = Raise EOFError.
Proof.
  apply (input_without_blank_line_ends_in_EOFError echo_query no_source false 5%nat
           (empty_store_world [lit "why"; lit "how"])).
  - done.
  - repeat constructor; by vm_compute.
  - simpl. lia.
Defined.

Lemma session_prints_answers_and_their_sources_witness :
  ∃ out,
    stdout (Main.qa_loop echo_query one_source true 5 Main.AwaitingQuery
              (empty_store_world [lit "why"; []])).2 = out ∧
    List.filter is_body out ≠ [].
Proof.
  destruct (session_prints_answers_and_their_sources echo_query one_source true 5%nat
              (empty_store_world [lit "why"; []])
              (Main.qa_loop echo_query one_source true 5 Main.AwaitingQuery
                 (empty_store_world [lit "why"; []])).1
              (Main.qa_loop echo_query one_source true 5 Main.AwaitingQuery
                 (empty_store_world [lit "why"; []])).2)
    as (out & evs & steps & Hout & _).
  - by destruct (Main.qa_loop _ _ _ _ _ _).
  - eexists. split; [reflexivity|]. by vm_compute.
Defined.

(** ** The stored text *)

Section stored_text.
Implicit Types (s : pystr) (c : N).

Definition printable (s : pystr) : Prop := Forall (λ c, (32 ≤ c)%N) s.

Lemma hexchar_printable (d : N) : (32 ≤ hexchar d)%N.
Proof. unfold hexchar. destruct (N.ltb_spec d 10); lia. Qed.

Lemma escape_char_printable c : printable (escape_char c).
Proof.
  unfold escape_char, printable.
  repeat (destruct (_ =? _)%N; [repeat constructor; vm_compute; discriminate|]).
  destruct (N.ltb_spec c 32).
  - repeat constructor; try (vm_compute; discriminate); apply hexchar_printable.
  - by repeat constructor.
Qed.

Lemma encode_basestring_printable s : printable (encode_basestring s).
Proof.
  unfold encode_basestring, printable.
  constructor; [vm_compute; discriminate|].
  apply Forall_app. split; [|repeat constructor; vm_compute; discriminate].
  induction s as [|c s IH]; [constructor|].
  simpl. apply Forall_app. split; [apply escape_char_printable|done].
Qed.

Lemma join_printable (sep : pystr) (parts : list pystr) :
  printable sep → Forall printable parts → printable (join sep parts).
Proof.
  intros Hsep Hparts. induction Hparts as [|x parts Hx Hparts IH]; [constructor|].
  destruct parts as [|y parts]; [done|].
  rewrite join_cons_cons. apply Forall_app. split; [done|].
  apply Forall_app. by split.
Qed.

(** X18: the stored summary is one line of text.  Whatever the title,
    the detail strings and the concise summary hold (line breaks and
    other control characters included), the text [run] writes has no
    character below the space: no line break, no tab. *)
Theorem stored_summary_is_one_line self (details : list pystr) (concise : pystr) :
  printable (dumps (summary_dict self details concise)) ∧
  10%N ∉ dumps (summary_dict self details concise).
Proof.
  assert (H : printable (dumps (summary_dict self details concise))).
  { rewrite dumps_summary. unfold printable.
    repeat (apply Forall_app; split);
      try apply encode_basestring_printable;
      try (repeat constructor; vm_compute; discriminate).
    apply join_printable; [repeat constructor; vm_compute; discriminate|].
    apply Forall_forall. intros x Hx.
    apply list_elem_of_In, in_map_iff in Hx as (s & <- & _).
    apply encode_basestring_printable. }
  split; [done|]. intros Hin.
  unfold printable in H. rewrite Forall_forall in H.
  specialize (H _ Hin). lia.
Qed.

End stored_text.
